(** * Fold splitting, label merging and model selection of the
      spatio-temporal-brain training harness

    Shallow embedding of
    - [merge_y_and_others] and [StratifiedGroupKFold] (src/utils.py),
    - the epoch loop, early stopping and checkpointing of [main_loop]
      (src/01_pyg_hcp.py),
    with the properties the specification states about them. *)

From Stdlib Require Import ZArith Floats Uint63 Ascii String.
From stdpp Require Import gmap list strings pretty sorting.

Set Warnings "-clear-no-such-hyp,-inexact-float".
Open Scope Z_scope.

(** ** The numeric runtime

    The Python code computes with NumPy float64 values: division, unary
    minus, the comparison [<], and the reductions [np.std] and [np.mean].
    The development is parametric in them; what it relies on is recorded
    as laws, all of which hold of IEEE 754 binary64 ([ieee] below gives the
    instance on Rocq's primitive floats). *)
Class Float64 := {
  f64 : Type;
  (** conversion of a Python [int] to float64 *)
  of_int : Z → f64;
  (** [a / b] *)
  fdiv : f64 → f64 → f64;
  (** [-a] *)
  fneg : f64 → f64;
  (** [a < b] *)
  flt : f64 → f64 → bool;
  (** [np.std] and [np.mean] of a sequence *)
  np_std : list f64 → f64;
  np_mean : list f64 → f64;
  flt_irrefl : ∀ a, flt a a = false;
  flt_trans : ∀ a b c, flt a b = true → flt b c = true → flt a c = true;
  flt_neg : ∀ a b, flt (fneg a) (fneg b) = flt b a;
}.

(** [random.Random(seed).shuffle(l)]: the standard library's shuffle with
    a generator of its own, seeded by [seed]. It rearranges the list and
    draws from no other state. *)
Class PyRandom := {
  shuffle : Z → ∀ {A : Type}, list A → list A;
  shuffle_perm : ∀ seed A (l : list A), shuffle seed l ≡ₚ l;
}.

(** ** Python containers *)

(** [range(n)] *)
Definition range (n : nat) : list nat := seq 0 n.

(** [enumerate(l)] *)
Definition enumerate {A} (l : list A) : list (nat * A) :=
  zip (seq 0 (length l)) l.

(** A [defaultdict]: a finite map read through its default. Reading a
    missing key stores the default under it, which no later read can tell
    from the key being absent, so reads are modelled without the store. *)
Definition dd_get `{Countable K} {V} (dflt : V) (d : gmap K V) (k : K) : V :=
  default dflt (d !! k).

(** [d[k] = f(d[k])] on a [defaultdict] *)
Definition dd_update `{Countable K} {V} (dflt : V) (f : V → V)
    (d : gmap K V) (k : K) : gmap K V :=
  <[k := f (dd_get dflt d k)]> d.

(** A [dict] in insertion order, as [list(d.items())] shows it: updating
    a present key keeps its place, a new key goes to the end. *)
Fixpoint od_update {V} (dflt : V) (f : V → V) (d : list (Z * V)) (k : Z)
    : list (Z * V) :=
  match d with
  | [] => [(k, f dflt)]
  | (k', v) :: d' =>
      if decide (k = k') then (k', f v) :: d'
      else (k', v) :: od_update dflt f d' k
  end.

(** [sorted(l, key=key)]: a stable sort by [<] on the keys. An element
    moves behind those elements to its right only whose key is strictly
    smaller. *)
Section sorted.
Context `{Float64} {A : Type} (key : A → f64).

Fixpoint sorted_insert (x : A) (l : list A) : list A :=
  match l with
  | [] => [x]
  | y :: l' =>
      if flt (key y) (key x) then y :: sorted_insert x l' else x :: l
  end.

Definition sorted (l : list A) : list A := foldr sorted_insert [] l.
End sorted.

(** ** Count vectors

    [np.zeros(labels_num)] and the vectors derived from it by [+= 1],
    [+=] and [-=] hold whole numbers; they are float64 arrays in the
    source and are exact as long as the counts stay below 2^53, so they are
    integers here and become [f64] where the source divides them or takes
    their standard deviation. *)
Definition np_zeros (n : nat) : list Z := replicate n 0.
Definition vec_add (a b : list Z) : list Z := zip_with Z.add a b.
Definition vec_sub (a b : list Z) : list Z := zip_with Z.sub a b.
(** [v[label] += 1] *)
Definition vec_incr (label : nat) (v : list Z) : list Z := alter Z.succ label v.
(** [v[label]] (in range at every use) *)
Definition vec_get (v : list Z) (label : nat) : Z := default 0 (v !! label).

(** [np.max(y)]; raises [ValueError] on an empty sequence. *)
Definition np_max (y : list nat) : option nat :=
  match y with
  | [] => None
  | a :: y' => Some (foldl Nat.max a y')
  end.

(** ** [StratifiedGroupKFold] (src/utils.py, lines 203-251)

    Labels are the dense codes [merge_y_and_others] produces (naturals),
    group ids are integers. *)
Module StratifiedGroupKFold.
Section split.
Context `{Float64} `{PyRandom}.

(** [self.n_splits], [self.random_state] *)
Variable n_splits : nat.
Variable random_state : Z.

(** The tables the greedy loop mutates: [y_counts_per_fold] and
    [groups_per_fold], keyed by fold; the key [None] is the value of
    [best_fold] when [range(n_splits)] is empty. *)
Record tables := Tables {
    y_counts_per_fold : gmap (option nat) (list Z);
    groups_per_fold : gmap (option nat) (gset Z);
  }.

Section with_counts.
Variable labels_num : nat.
(** [y_distr], a [Counter]: absent labels count 0 *)
Variable y_distr : gmap nat Z.

(** lines 220-227: add the group's counts to [fold], score the
    table, take them out again, return the score (and the table as it
    is left). *)
Definition eval_y_counts_per_fold (per_fold : gmap (option nat) (list Z))
    (y_counts : list Z) (fold : nat) : f64 * gmap (option nat) (list Z) :=
  let per_fold1 :=
    dd_update (np_zeros labels_num) (λ v, vec_add v y_counts)
              per_fold (Some fold) in
  let std_per_label :=
    (λ label,
       np_std ((λ i, fdiv (of_int (vec_get (dd_get (np_zeros labels_num)
                                                    per_fold1 (Some i)) label))
                          (of_int (dd_get 0 y_distr label)))
               <$> range n_splits))
    <$> range labels_num in
  let per_fold2 :=
    dd_update (np_zeros labels_num) (λ v, vec_sub v y_counts)
              per_fold1 (Some fold) in
  (np_mean std_per_label, per_fold2).

(** lines 233-239: the probe over the folds in ascending order, with
    [best_fold] and [min_eval] starting as [None]. *)
Definition probe_step (y_counts : list Z)
    (acc : option nat * option f64 * gmap (option nat) (list Z)) (i : nat)
    : option nat * option f64 * gmap (option nat) (list Z) :=
  let '(best_fold, min_eval, per_fold) := acc in
  let '(fold_eval, per_fold') := eval_y_counts_per_fold per_fold y_counts i in
  match min_eval with
  | None => (Some i, Some fold_eval, per_fold')
  | Some m =>
      if flt fold_eval m then (Some i, Some fold_eval, per_fold')
      else (best_fold, min_eval, per_fold')
  end.

(** lines 232-241, one iteration of the loop over the groups *)
Definition assign_group (t : tables) (gc : Z * list Z) : tables :=
  let '(g, y_counts) := gc in
  let '(best_fold, _, per_fold) :=
    foldl (probe_step y_counts) (None, None, y_counts_per_fold t)
          (range n_splits) in
  Tables
    (dd_update (np_zeros labels_num) (λ v, vec_add v y_counts)
               per_fold best_fold)
    (dd_update ∅ (λ s, s ∪ {[g]}) (groups_per_fold t) best_fold).

(** lines 229-241 *)
Definition assign_groups (y_counts_per_group : list (Z * list Z)) : tables :=
  let groups_and_y_counts := shuffle random_state y_counts_per_group in
  foldl assign_group (Tables ∅ ∅)
        (sorted (λ x, fneg (np_std (of_int <$> x.2))) groups_and_y_counts).
End with_counts.

(** lines 211-215: the counting loop over [zip(y, groups)] *)
Definition count_step (labels_num : nat)
    (acc : list (Z * list Z) * gmap nat Z) (lg : nat * Z)
    : list (Z * list Z) * gmap nat Z :=
  let '(y_counts_per_group, y_distr) := acc in
  let '(label, g) := lg in
  (od_update (np_zeros labels_num) (vec_incr label) y_counts_per_group g,
   dd_update 0 Z.succ y_distr label).

(** lines 243-251: the pair of fold [i] *)
Definition indices_in (groups : list Z) (s : gset Z) : list nat :=
  (filter (λ ig, ig.2 ∈ s) (enumerate groups)).*1.

Definition fold_pair (groups : list Z) (t : tables) (i : nat)
    : list nat * list nat :=
  let all_groups : gset Z := list_to_set groups in
  let train_groups := all_groups ∖ dd_get ∅ (groups_per_fold t) (Some i) in
  let test_groups := dd_get ∅ (groups_per_fold t) (Some i) in
  (indices_in groups train_groups, indices_in groups test_groups).

(** lines 210-215: [labels_num], then [y_counts_per_group] (in insertion
  order) and [y_distr]; [None] when [np.max(y)] raises. *)
Definition count_labels (y : list nat) (groups : list Z)
    : option (nat * (list (Z * list Z) * gmap nat Z)) :=
  m ← np_max y;
  let labels_num := S m in
  Some (labels_num, foldl (count_step labels_num) ([], ∅) (zip y groups)).

(** The tables after line 241. *)
Definition fold_tables (y : list nat) (groups : list Z) : option tables :=
  '(labels_num, (y_counts_per_group, y_distr)) ← count_labels y groups;
  Some (assign_groups labels_num y_distr y_counts_per_group).

(** [split(X, y, groups)], run to exhaustion: the pairs in the order
      they are yielded, or [None] when the call raises (before the first
      pair). [X] is not looked at. *)
Definition split {S : Type} (X : list S) (y : list nat) (groups : list Z)
    : option (list (list nat * list nat)) :=
  t ← fold_tables y groups;
  Some (fold_pair groups t <$> range n_splits).

(** *** The algorithm as the specification words it (section 4.2, steps
    2 to 5)

    A fixed table of [n_splits] count vectors and a list of committed
    (group, fold) decisions; no probe mutates anything. *)

(** Step 3: descending order of the standard deviation of each group's own
    count vector. An element stays ahead of the elements to its right
    unless one of them has a strictly greater deviation. *)
Definition own_std (gc : Z * list Z) : f64 := np_std (of_int <$> gc.2).

Fixpoint desc_insert (x : Z * list Z) (l : list (Z * list Z))
    : list (Z * list Z) :=
  match l with
  | [] => [x]
  | y :: l' =>
      if flt (own_std x) (own_std y) then y :: desc_insert x l' else x :: l
  end.

Definition sort_desc (l : list (Z * list Z)) : list (Z * list Z) :=
  foldr desc_insert [] l.

(** Step 4: the table with the group's counts tentatively added to fold
    [i], and its score: the mean over the labels of the standard deviation
    across the folds of [fold_count[f][label] / y_distr[label]]. *)
Definition tentative (counts : list (list Z)) (i : nat) (c : list Z)
    : list (list Z) :=
  alter (λ v, vec_add v c) i counts.

Definition spec_score (labels_num : nat) (y_distr : gmap nat Z)
    (counts : list (list Z)) (c : list Z) (i : nat) : f64 :=
  np_mean ((λ label,
              np_std ((λ v, fdiv (of_int (vec_get v label))
                                 (of_int (dd_get 0 y_distr label)))
                      <$> tentative counts i c))
           <$> range labels_num).

(** The fold with the minimum score, the first one among equals: folds
    are looked at in ascending order and only a strictly smaller score
    replaces the best so far. *)
Fixpoint first_min_from (best : nat) (m : f64) (i : nat) (scores : list f64)
    : nat :=
  match scores with
  | [] => best
  | s :: scores' =>
      if flt s m then first_min_from i s (S i) scores'
      else first_min_from best m (S i) scores'
  end.

Definition first_min (scores : list f64) : nat :=
  match scores with
  | [] => 0%nat
  | s :: scores' => first_min_from 0 s 1 scores'
  end.

(** Steps 4 and 5 for one group: choose, commit, record. *)
Definition spec_assign_group (labels_num : nat) (y_distr : gmap nat Z)
    (st : list (list Z) * list (Z * nat)) (gc : Z * list Z)
    : list (list Z) * list (Z * nat) :=
  let '(counts, assignment) := st in
  let '(g, c) := gc in
  let i := first_min (spec_score labels_num y_distr counts c <$> range n_splits) in
  (tentative counts i c, assignment ++ [(g, i)]).

(** Steps 2 to 5: the group-to-fold mapping, in the order it is built. *)
Definition spec_assignment (labels_num : nat) (y_distr : gmap nat Z)
    (y_counts_per_group : list (Z * list Z)) : list (Z * nat) :=
  (foldl (spec_assign_group labels_num y_distr)
         (replicate n_splits (np_zeros labels_num), [])
         (sort_desc (shuffle random_state y_counts_per_group))).2.

(** The set of groups of each fold under a group-to-fold mapping. *)
Definition fold_sets (assignment : list (Z * nat)) : gmap (option nat) (gset Z) :=
  foldl (λ m gi, dd_update ∅ (λ s, s ∪ {[gi.1]}) m (Some gi.2)) ∅ assignment.

(** Step 1 is the counting of the source; the specified group sets of a
    call. *)
Definition spec_fold_sets (y : list nat) (groups : list Z)
    : option (gmap (option nat) (gset Z)) :=
  '(labels_num, (y_counts_per_group, y_distr)) ← count_labels y groups;
  Some (fold_sets (spec_assignment labels_num y_distr y_counts_per_group)).
End split.
End StratifiedGroupKFold.


(** ** [merge_y_and_others] (src/utils.py, lines 123-126) *)

(** [torch.cat([ys.long().view(-1, 1), indices.view(-1, 1)], dim=1)]: the
    rows of the two-column tensor. [ys] holds whole numbers, on which
    [.long()] is the identity; [torch.cat] raises when the columns differ in
    length. *)
Definition torch_cat_columns (ys indices : list Z) : option (list (Z * Z)) :=
  if decide (length ys = length indices) then Some (zip ys indices) else None.

(** [str(row)] of a NumPy integer row [[a b]]: the elements in decimal,
    right-justified to the width of the longest, separated by one space,
    in brackets: [str(np.array([0, 12]))] is ["[ 0 12]"]. *)
Fixpoint spaces (k : nat) : string :=
  match k with
  | O => EmptyString
  | S k' => String " "%char (spaces k')
  end.

Definition rjust (w : nat) (s : string) : string :=
  spaces (w - String.length s) +:+ s.

Definition numpy_str_row (row : Z * Z) : string :=
  let a := pretty row.1 in
  let b := pretty row.2 in
  let w := Nat.max (String.length a) (String.length b) in
  String "["%char (rjust w a +:+ String " "%char (rjust w b +:+ "]")).

(** [LabelEncoder().fit_transform(l)]: [classes_] is [np.unique(l)], the
    distinct values in ascending order, and every value is replaced by its
    position in [classes_]. *)
Definition np_unique (l : list string) : list string :=
  merge_sort String.le (remove_dups l).

Fixpoint index_of (s : string) (classes : list string) : nat :=
  match classes with
  | [] => O
  | c :: classes' => if decide (s = c) then O else S (index_of s classes')
  end.

Definition fit_transform (l : list string) : list nat :=
  (λ s, index_of s (np_unique l)) <$> l.

Definition merge_y_and_others (ys indices : list Z) : option (list nat) :=
  tmp ← torch_cat_columns ys indices;
  Some (fit_transform (numpy_str_row <$> tmp)).

(** ** The epoch loop and the checkpoints of [main_loop]
    (src/01_pyg_hcp.py, lines 278-401) *)
Module MainLoop.

(** [collections.deque(..., maxlen=n).append(x)]: the new element goes to
    the right end, and the left end falls off a full window. *)
Definition deque_append {A} (maxlen : nat) (d : list A) (x : A) : list A :=
  drop (length (d ++ [x]) - maxlen) (d ++ [x]).

Section controller.
Context `{Float64}.

(** [args.early_stop_steps], [args.num_epochs] *)
Variable EARLY_STOP_STEPS : nat.
Variable N_EPOCHS : nat.

(** What the grid loop carries for one outer fold (lines 281-284), and
    the calls of [torch.save] and [pickle.dump] made so far: the path and
    the validation value of the model written. *)
Record outer_fold := OuterFold {
  best_model_name_outer_fold_auc : option string;
  best_model_name_outer_fold_loss : option string;
  best_outer_metric_loss : f64;
  best_outer_metric_auc : f64;
  saved_loss : list (string * f64);
  saved_auc : list (string * f64);
}.

(** lines 281-284 *)
Definition outer_fold_init : outer_fold :=
  OuterFold None None (of_int 1000) (fneg (of_int 1000)) [] [].

(** What the epoch loop of one hyperparameter combination carries (lines
    372-379), and the number of calls of [classifier_step]. *)
Record epoch_loop_state := EpochLoop {
  best_metrics_fold_loss : f64;
  best_metrics_fold_auc : f64;
  last_losses_val : list f64;
  outer : outer_fold;
  epochs_trained : nat;
  stopped_early : bool;
}.

(** lines 372-379 *)
Definition epoch_loop_init (o : outer_fold) : epoch_loop_state :=
  EpochLoop (of_int 1000) (fneg (of_int 1000))
            (replicate EARLY_STOP_STEPS (of_int 1000)) o 0 false.

(** line 389: [sum([v > loss for loss in last_losses_val]) == EARLY_STOP_STEPS] *)
Definition worse_than_window (v : f64) (window : list f64) : bool :=
  bool_decide (length (filter (λ loss, flt loss v = true) window)
               = EARLY_STOP_STEPS).

(** lines 392-399: the epoch was not the last one; push the loss and
    keep the checkpoint if it is the best of this combination. *)
Definition record_epoch (model_name_loss : string) (v : f64)
    (s : epoch_loop_state) : epoch_loop_state :=
  let window := deque_append EARLY_STOP_STEPS (last_losses_val s) v in
  let o := outer s in
  if flt v (best_metrics_fold_loss s) then
    let o1 :=
      OuterFold (best_model_name_outer_fold_auc o)
                (best_model_name_outer_fold_loss o)
                (best_outer_metric_loss o) (best_outer_metric_auc o)
                (saved_loss o ++ [(model_name_loss, v)]) (saved_auc o) in
    let o2 :=
      if flt v (best_outer_metric_loss o) then
        OuterFold (best_model_name_outer_fold_auc o1) (Some model_name_loss)
                  v (best_outer_metric_auc o1) (saved_loss o1) (saved_auc o1)
      else o1 in
    EpochLoop v (best_metrics_fold_auc s) window o2
              (epochs_trained s) (stopped_early s)
  else
    EpochLoop (best_metrics_fold_loss s) (best_metrics_fold_auc s) window o
              (epochs_trained s) (stopped_early s).

(** lines 381-399: the loop over [range(1, N_EPOCHS)]. [val_loss epoch]
    is the validation loss [classifier_step] returns in that epoch.
    [TARGET_VAR] is ['gender'] in every run that gets here (line 188), so
    the body is that of the [if]. The loop never touches the [auc]
    entries. *)
Fixpoint epoch_loop_from (model_name_loss : string) (val_loss : nat → f64)
    (epochs : list nat) (s : epoch_loop_state) : epoch_loop_state :=
  match epochs with
  | [] => s
  | epoch :: epochs' =>
      let v := val_loss epoch in
      let s1 :=
        EpochLoop (best_metrics_fold_loss s) (best_metrics_fold_auc s)
                  (last_losses_val s) (outer s) (S (epochs_trained s))
                  (stopped_early s) in
      if worse_than_window v (last_losses_val s1) then
        EpochLoop (best_metrics_fold_loss s1) (best_metrics_fold_auc s1)
                  (last_losses_val s1) (outer s1) (epochs_trained s1) true
      else
        epoch_loop_from model_name_loss val_loss epochs'
                        (record_epoch model_name_loss v s1)
  end.

Definition epoch_loop (model_name_loss : string) (val_loss : nat → f64)
    (o : outer_fold) : epoch_loop_state :=
  epoch_loop_from model_name_loss val_loss (seq 1 (N_EPOCHS - 1))
                  (epoch_loop_init o).

(** lines 348-361: the boosted-tree baseline, one fit and one score. *)
Definition fit_once (model_name_auc : string) (auc : f64) (o : outer_fold)
    : outer_fold :=
  if flt (best_outer_metric_auc o) auc then
    OuterFold (Some model_name_auc) (best_model_name_outer_fold_loss o)
              (best_outer_metric_loss o) auc
              (saved_loss o) (saved_auc o ++ [(model_name_auc, auc)])
  else o.

(** A hyperparameter combination, as the controller sees it: the
    checkpoint path of its model and what the model collaborator reports. *)
Inductive candidate :=
  | EpochTrained (model_name_loss : string) (val_loss : nat → f64)
  | BoostedTrees (model_name_auc : string) (auc : f64).

(** lines 285-401: the loop over the grid *)
Definition run_candidate (o : outer_fold) (c : candidate) : outer_fold :=
  match c with
  | EpochTrained name val_loss => outer (epoch_loop name val_loss o)
  | BoostedTrees name auc => fit_once name auc o
  end.

Definition run_grid (grid : list candidate) : outer_fold :=
  foldl run_candidate outer_fold_init grid.
End controller.
End MainLoop.

(** ** The training loop of the encoders (src/encoders/encoders.py,
    lines 286-351) *)
Module EncoderLoop.
Section controller.
Context `{Float64}.

(** [args.num_epochs] *)
Variable N_EPOCHS : nat.

(** What the grid loop carries (lines 287-288), and the calls of
    [torch.save] made so far: the path and the validation loss of the
    model written. *)
Record outer_fold := OuterFold {
  best_model_name_outer_fold_loss : option string;
  best_outer_metric_loss : f64;
  saved : list (string * f64);
}.

Definition outer_fold_init : outer_fold := OuterFold None (of_int 1000) [].

(** What the epoch loop of one combination carries (lines 330-332);
    [losses['train']] is written and never read. *)
Record epoch_loop_state := EpochLoop {
  best_metrics_fold_loss : f64;
  losses_val : list f64;
  outer : outer_fold;
}.

(** lines 334-348: one epoch. [val_loss epoch] is the validation loss
    that [training_step] returns in that epoch. *)
Definition training_epoch (inner_model_name : string) (val_loss : nat → f64)
    (s : epoch_loop_state) (epoch : nat) : epoch_loop_state :=
  let v := val_loss epoch in
  let losses := losses_val s ++ [v] in
  let o := outer s in
  if flt v (best_metrics_fold_loss s) then
    if flt v (best_outer_metric_loss o) then
      EpochLoop v losses
        (OuterFold (Some inner_model_name) v
                   (saved o ++ [(inner_model_name, v)]))
    else
      EpochLoop v losses
        (OuterFold (best_model_name_outer_fold_loss o)
                   (best_outer_metric_loss o)
                   (saved o ++ [(inner_model_name, v)]))
  else EpochLoop (best_metrics_fold_loss s) losses o.

(** lines 330-348: the loop over [range(N_EPOCHS)] *)
Definition epoch_loop (inner_model_name : string) (val_loss : nat → f64)
    (o : outer_fold) : epoch_loop_state :=
  foldl (training_epoch inner_model_name val_loss)
        (EpochLoop (of_int 1000) [] o) (seq 0 N_EPOCHS).

(** lines 289-351: the loop over the grid; a combination is seen as its
    checkpoint path and the losses of its epochs. *)
Definition run_grid (grid : list (string * (nat → f64))) : outer_fold :=
  foldl (λ o params, outer (epoch_loop params.1 params.2 o))
        outer_fold_init grid.

End controller.
End EncoderLoop.

(** ** The outer loop of both scripts (src/01_pyg_hcp.py, lines
    243-249; src/encoders/encoders.py, lines 265-271)

    The pairs on which the body of the loop runs, each with its
    [outer_split_num]. [SPLIT_TO_TEST] is [args.fold_num]: [None] when
    01_pyg_hcp.py is called without [--fold_num], which has no default
    there. *)
Definition outer_loop {A} (SPLIT_TO_TEST : option Z) (skf_generator : list A)
    : list (Z * A) :=
  (foldl (λ st fold,
            let outer_split_num := st.1 + 1 in
            if decide (Some outer_split_num ≠ SPLIT_TO_TEST)
            then (outer_split_num, st.2)
            else (outer_split_num, st.2 ++ [(outer_split_num, fold)]))
         (0, []) skf_generator).2.

(** ** The GPU reservation file (src/utils.py, lines 77-120)

    Both functions open [tmp_gpu.txt] with mode ['r+'], which needs the
    file to exist, and work on it under an exclusive [flock]: a call is
    one atomic step on the content of the file. *)
Module GpuLock.

(** lines 77-105: the GPU to use and the new content of the file *)
Definition get_freer_gpu (info_file : string) : Z * string :=
  if decide (info_file = "server") then (0, info_file)
  else if decide (info_file = "0") then (1, info_file)
  else (0, "0"%string).

(** lines 108-120 *)
Definition free_gpu_info (info_file : string) : string :=
  if decide (info_file = "server") then info_file else EmptyString.

(** The calls that the processes sharing the file make, in the order in
    which they get the lock. *)
Inductive gpu_call := GetFreerGpu | FreeGpuInfo.

#[global] Instance gpu_call_eq_dec : EqDecision gpu_call.
Proof. solve_decision. Defined.

Definition call (c : gpu_call) (info_file : string) : option Z * string :=
  match c with
  | GetFreerGpu => (Some (get_freer_gpu info_file).1, (get_freer_gpu info_file).2)
  | FreeGpuInfo => (None, free_gpu_info info_file)
  end.

(** The content of the file after the calls [cs]. *)
Definition content_after (cs : list gpu_call) (info_file : string) : string :=
  foldl (λ content c, (call c content).2) info_file cs.

(** The GPUs that the [get_freer_gpu] calls among [cs] return. *)
Fixpoint gpus_given (cs : list gpu_call) (info_file : string) : list Z :=
  match cs with
  | [] => []
  | c :: cs' =>
      match (call c info_file).1 with
      | Some gpu => gpu :: gpus_given cs' (call c info_file).2
      | None => gpus_given cs' (call c info_file).2
      end
  end.

End GpuLock.

(** ** Enumerations and file names (src/utils.py, lines 20-74 and
    153-156; src/encoders/encoders.py, lines 22 and 66) *)

(** lines 20-25 *)
Module Normalisation.
Inductive t := NONE | ROI | SUBJECT.
Definition value (e : t) : string :=
  match e with
  | NONE => "no_norm"
  | ROI => "roi_norm"
  | SUBJECT => "subject_norm"
  end.
End Normalisation.

(** lines 40-45 *)
Module ConvStrategy.
Inductive t := CNN_ENTIRE | TCN_ENTIRE | NONE.
Definition value (e : t) : string :=
  match e with
  | CNN_ENTIRE => "entire"
  | TCN_ENTIRE => "tcn_entire"
  | NONE => "none"
  end.
End ConvStrategy.

(** lines 48-53 *)
Module PoolingStrategy.
Inductive t := MEAN | DIFFPOOL | CONCAT.
Definition value (e : t) : string :=
  match e with
  | MEAN => "mean"
  | DIFFPOOL => "diff_pool"
  | CONCAT => "concat"
  end.
End PoolingStrategy.

(** lines 68-74 *)
Module EncodingStrategy.
Inductive t := NONE | AE3layers | VAE3layers | STATS.
Definition value (e : t) : string :=
  match e with
  | NONE => "none"
  | AE3layers => "3layerAE"
  | VAE3layers => "3layerVAE"
  | STATS => "stats"
  end.
End EncodingStrategy.

(** [value[:3]], as in [normalisation.value[:3]] (line 195): the first
    three characters, or all of them when there are fewer. *)
Definition first3 (s : string) : string := substring 0 3 s.

(** The encoders of encoders.py and their [MODEL_NAME]. *)
Inductive encoder := AE | VAE.

Definition MODEL_NAME (m : encoder) : string :=
  match m with
  | AE => "3layerAE"
  | VAE => "3layerVAE"
  end.

(** encoders.py, lines 303-306: the model that is trained; for the other
    strategies [model] stays unbound. *)
Definition encoder_of (e : EncodingStrategy.t) : option encoder :=
  match e with
  | EncodingStrategy.AE3layers => Some AE
  | EncodingStrategy.VAE3layers => Some VAE
  | _ => None
  end.

(** lines 153-156: an f-string; [ts_length] and [outer_split_num] are
    ints, which format as [str] does. *)
Definition create_best_encoder_name (ts_length outer_split_num : Z)
    (encoder_name : string) (prefix_location suffix : string) : string :=
  prefix_location +:+ encoder_name +:+ "_" +:+ pretty ts_length +:+ "_"
  +:+ pretty outer_split_num +:+ "_best" +:+ suffix.

(** ** The name of the dataset directory (src/utils.py, lines 28-37,
    56-65 and 140-150) *)

(** lines 28-31 *)
Module DatasetType.
Inductive t := HCP | UKB.
Definition value (e : t) : string :=
  match e with
  | HCP => "hcp"
  | UKB => "ukb"
  end.
End DatasetType.

(** lines 34-37 *)
Module ConnType.
Inductive t := FMRI | STRUCT.
Definition value (e : t) : string :=
  match e with
  | FMRI => "fmri"
  | STRUCT => "struct"
  end.
End ConnType.

(** lines 56-65 *)
Module AnalysisType.
Inductive t := ST_UNIMODAL | ST_MULTIMODAL | FLATTEN_CORRS | FLATTEN_CORRS_THRESHOLD.
Definition value (e : t) : string :=
  match e with
  | ST_UNIMODAL => "st_unimodal"
  | ST_MULTIMODAL => "st_multimodal"
  | FLATTEN_CORRS => "flatten_corrs"
  | FLATTEN_CORRS_THRESHOLD => "flatten_corrs_threshold"
  end.
End AnalysisType.

(** lines 140-150; ['_'.join] is [String.concat "_"], the numbers are
    ints and print as [str] prints them. *)
Definition create_name_for_brain_dataset (num_nodes time_length : Z)
    (target_var : string) (threshold : Z) (connectivity_type : ConnType.t)
    (normalisation : Normalisation.t) (analysis_type : AnalysisType.t)
    (dataset_type : DatasetType.t) (encoding_strategy : EncodingStrategy.t)
    : string :=
  let prefix_location := "./pytorch_data/unbalanced_" in
  let name_combination :=
    String.concat "_"
      [target_var; DatasetType.value dataset_type;
       AnalysisType.value analysis_type;
       EncodingStrategy.value encoding_strategy;
       ConnType.value connectivity_type;
       pretty num_nodes; pretty time_length; pretty threshold;
       Normalisation.value normalisation] in
  prefix_location +:+ name_combination.


(** ** The runtime on IEEE 754 binary64

    Rocq's primitive floats are binary64. The comparison laws of
    [Float64] follow from the specification of the primitive operations. *)
Module IEEE.

Lemma SFltb_irrefl x : SFltb x x = false.
Proof.
  unfold SFltb, SFcompare.
  destruct x as [[]|[]| |[] m e]; try reflexivity.
  all: rewrite Z.compare_refl, Pos.compare_cont_refl; reflexivity.
Qed.

Lemma SFltb_opp x y : SFltb (SFopp x) (SFopp y) = SFltb y x.
Proof.
  unfold SFltb, SFcompare, SFopp.
  destruct x as [[]|[]| |[] m e], y as [[]|[]| |[] m' e']; cbn; try reflexivity.
  all: change (Pos.compare_cont Eq ?a ?b) with (Pos.compare a b).
  all: destruct (Z.compare_spec e e'), (Z.compare_spec e' e);
       cbn; try reflexivity; try lia.
  all: destruct (Pos.compare_spec m m'), (Pos.compare_spec m' m);
       cbn; try reflexivity; try lia.
Qed.

Lemma SFltb_trans x y z :
  SFltb x y = true → SFltb y z = true → SFltb x z = true.
Proof.
  unfold SFltb, SFcompare.
  destruct x as [[]|[]| |[] m e], y as [[]|[]| |[] m' e'],
           z as [[]|[]| |[] m'' e''];
    cbn; try reflexivity; try discriminate.
  all: change (Pos.compare_cont Eq ?a ?b) with (Pos.compare a b).
  all: destruct (Z.compare_spec e e'), (Z.compare_spec e' e''),
                (Z.compare_spec e e'');
       cbn; try reflexivity; try discriminate; try lia.
  all: destruct (Pos.compare_spec m m'), (Pos.compare_spec m' m''),
                (Pos.compare_spec m m'');
       cbn; try reflexivity; try discriminate; try lia.
Qed.

(** A Python [int] as a float (exact below 2^53 in magnitude). *)
Definition float_of_int (z : Z) : float :=
  if (z <? 0)%Z then PrimFloat.opp (PrimFloat.of_uint63 (Uint63.of_Z (- z)))
  else PrimFloat.of_uint63 (Uint63.of_Z z).

(** [np.sum], [np.mean] and [np.std] of a short sequence: NumPy adds
    fewer than eight elements from left to right; [np.std] is the square
    root of the mean of the squared deviations from the mean. *)
Definition float_sum (l : list float) : float :=
  foldl PrimFloat.add PrimFloat.zero l.

Definition float_mean (l : list float) : float :=
  PrimFloat.div (float_sum l) (float_of_int (Z.of_nat (length l))).

Definition float_std (l : list float) : float :=
  let m := float_mean l in
  PrimFloat.sqrt
    (float_mean ((λ x, PrimFloat.mul (PrimFloat.sub x m) (PrimFloat.sub x m))
                 <$> l)).

#[export] Program Instance ieee : Float64 := {|
  f64 := float;
  of_int := float_of_int;
  fdiv := PrimFloat.div;
  fneg := PrimFloat.opp;
  flt := PrimFloat.ltb;
  np_std := float_std;
  np_mean := float_mean;
|}.
Next Obligation. intros a. rewrite FloatAxioms.ltb_spec. apply SFltb_irrefl. Qed.
Next Obligation. intros a b c. rewrite !FloatAxioms.ltb_spec. apply SFltb_trans. Qed.
Next Obligation.
  intros a b. rewrite !FloatAxioms.ltb_spec, !FloatAxioms.opp_spec.
  apply SFltb_opp.
Qed.

(** A shuffle to run examples with. Python's generator is not
    reproduced; the examples that state the pairs of a call are on inputs
    with a single group, which every shuffle leaves as they are. *)
#[export] Program Instance reversing : PyRandom := {|
  shuffle _ _ l := reverse l;
|}.
Next Obligation. intros seed A l. apply reverse_Permutation. Qed.

End IEEE.


(** * Properties *)

Import StratifiedGroupKFold.

(** ** Index lists *)
Section indices.
Implicit Types (groups : list Z) (s : gset Z) (i : nat).

Lemma StronglySorted_seq (a n : nat) : StronglySorted lt (seq a n).
Proof.
  revert a; induction n as [|n IH]; intros a; simpl; constructor; [done|].
  apply Forall_forall. intros j [Hj _]%elem_of_seq. lia.
Qed.

Lemma StronglySorted_sublist {A} (R : relation A) (l k : list A) :
  l `sublist_of` k → StronglySorted R k → StronglySorted R l.
Proof.
  induction 1 as [|x l k Hs IH|x l k Hs IH]; inversion_clear 1; [constructor|..].
  - constructor; [by apply IH|].
    rewrite Forall_forall in *. eauto using elem_of_sublist.
  - by apply IH.
Qed.

Lemma enumerate_lookup {A} (l : list A) i (x : A) :
  (i, x) ∈ enumerate l ↔ l !! i = Some x.
Proof.
  unfold enumerate. rewrite list_elem_of_lookup. split.
  - intros [k Hk]. apply lookup_zip_with_Some in Hk as (j & y & [= -> ->] & Hj & Hy).
    apply lookup_seq in Hj as [-> _]. done.
  - intros Hx. exists i. apply lookup_zip_with_Some. exists i, x.
    split; [done|]. split; [|done].
    apply lookup_seq. split; [done|]. by eapply lookup_lt_Some.
Qed.

Lemma indices_in_sublist groups s :
  indices_in groups s `sublist_of` seq 0 (length groups).
Proof.
  unfold indices_in, enumerate.
  etrans; [apply fmap_sublist, sublist_filter|].
  by rewrite fst_zip by (by rewrite length_seq).
Qed.

Lemma indices_in_ascending groups s : StronglySorted lt (indices_in groups s).
Proof.
  eapply StronglySorted_sublist; [apply indices_in_sublist|apply StronglySorted_seq].
Qed.

Lemma elem_of_indices_in groups s i :
  i ∈ indices_in groups s ↔ ∃ g, groups !! i = Some g ∧ g ∈ s.
Proof.
  unfold indices_in. rewrite list_elem_of_fmap. split.
  - intros [[j g] [-> [Hg Hin]%list_elem_of_filter]]. simpl in *.
    exists g. by rewrite <-enumerate_lookup.
  - intros (g & Hg & Hin). exists (i, g). split; [done|].
    apply list_elem_of_filter. by rewrite enumerate_lookup.
Qed.
End indices.

(** ** The greedy assignment against its specification *)
Section vectors.
Lemma length_np_zeros n : length (np_zeros n) = n.
Proof. apply length_replicate. Qed.

Lemma length_vec_add a b : length a = length b → length (vec_add a b) = length a.
Proof. intros E. unfold vec_add. rewrite length_zip_with. lia. Qed.

Lemma length_vec_incr label v : length (vec_incr label v) = length v.
Proof. apply length_alter. Qed.

Lemma vec_sub_add v c : length v = length c → vec_sub (vec_add v c) c = v.
Proof.
  unfold vec_sub, vec_add. revert c.
  induction v as [|a v IH]; intros [|b c] E; simplify_eq/=; [done|].
  f_equal; [lia|auto].
Qed.
End vectors.

Section sorting.
Context `{Float64}.

Lemma sorted_insert_perm {A} (key : A → f64) x l :
  sorted_insert key x l ≡ₚ x :: l.
Proof.
  induction l as [|y l IH]; simpl; [done|].
  case_match; [|done]. rewrite IH. apply Permutation_swap.
Qed.

Lemma sorted_perm {A} (key : A → f64) (l : list A) : sorted key l ≡ₚ l.
Proof.
  induction l as [|x l IH]; simpl; [done|].
  by rewrite sorted_insert_perm, IH.
Qed.

Lemma sorted_by_negated_std l :
  sorted (λ x : Z * list Z, fneg (np_std (of_int <$> x.2))) l = sort_desc l.
Proof.
  unfold sorted, sort_desc. induction l as [|x l IH]; simpl; [done|].
  rewrite IH. generalize (foldr desc_insert [] l). intros k.
  induction k as [|y k IHk]; simpl; [done|].
  rewrite flt_neg. unfold own_std. by rewrite IHk.
Qed.
End sorting.

Section refinement.
Context `{Float64} `{PyRandom}.
Variable n_splits : nat.
Variable random_state : Z.
Variable labels_num : nat.
Variable y_distr : gmap nat Z.

Local Abbreviation zeros := (np_zeros labels_num).
Local Abbreviation per_fold_t := (gmap (option nat) (list Z)).

(** What reads of [y_counts_per_fold] see. *)
Definition same_reads (m m' : per_fold_t) : Prop :=
  ∀ k, dd_get zeros m k = dd_get zeros m' k.

Definition counts_view (m : per_fold_t) : list (list Z) :=
  (λ f, dd_get zeros m (Some f)) <$> range n_splits.

Definition well_sized (m : per_fold_t) : Prop :=
  ∀ k, length (dd_get zeros m k) = labels_num.

Lemma same_reads_refl m : same_reads m m.
Proof. done. Qed.

Lemma same_reads_trans m1 m2 m3 :
  same_reads m1 m2 → same_reads m2 m3 → same_reads m1 m3.
Proof. intros E1 E2 k. by rewrite E1. Qed.

Lemma counts_view_same_reads m m' :
  same_reads m m' → counts_view m = counts_view m'.
Proof. intros E. unfold counts_view. apply list_fmap_ext. intros _ f _. apply E. Qed.

Lemma well_sized_same_reads m m' :
  same_reads m m' → well_sized m → well_sized m'.
Proof. intros E W k. by rewrite <-E. Qed.

Lemma dd_get_update {V} (d : V) (f : V → V) (m : gmap (option nat) V) k k' :
  dd_get d (dd_update d f m k) k'
  = if decide (k = k') then f (dd_get d m k) else dd_get d m k'.
Proof.
  unfold dd_update, dd_get at 1. rewrite lookup_insert.
  by case_decide.
Qed.

Lemma counts_view_update m i c :
  counts_view (dd_update zeros (λ v, vec_add v c) m (Some i))
  = tentative (counts_view m) i c.
Proof.
  unfold counts_view, tentative, range. apply list_eq. intros k.
  rewrite list_lookup_fmap.
  destruct (decide (k = i)) as [->|Hne].
  - rewrite list_lookup_alter_eq, list_lookup_fmap.
    destruct (seq 0 n_splits !! i) as [j|] eqn:Hj; simpl; [|done].
    apply lookup_seq in Hj as [-> _]. simpl.
    rewrite dd_get_update. by rewrite decide_True.
  - rewrite list_lookup_alter_ne by done. rewrite list_lookup_fmap.
    destruct (seq 0 n_splits !! k) as [j|] eqn:Hj; simpl; [|done].
    apply lookup_seq in Hj as [-> _]. simpl.
    rewrite dd_get_update. rewrite decide_False; [done|congruence].
Qed.

Lemma eval_y_counts_per_fold_spec m c i :
  well_sized m → length c = labels_num →
  (eval_y_counts_per_fold n_splits labels_num y_distr m c i).1
    = spec_score labels_num y_distr (counts_view m) c i
  ∧ same_reads (eval_y_counts_per_fold n_splits labels_num y_distr m c i).2 m.
Proof.
  intros W Hc. unfold eval_y_counts_per_fold. simpl. split.
  - unfold spec_score. f_equal. apply list_fmap_ext. intros _ label _.
    f_equal. rewrite <-counts_view_update. unfold counts_view.
    by rewrite <-list_fmap_compose.
  - intros k. rewrite dd_get_update. case_decide as Hk; [|by rewrite dd_get_update, decide_False].
    subst k. rewrite dd_get_update, decide_True by done.
    apply vec_sub_add. by rewrite W, Hc.
Qed.

Lemma probe_step_unfold c (best : option nat) (mn : option f64) m i :
  probe_step n_splits labels_num y_distr c (best, mn, m) i
  = let r := eval_y_counts_per_fold n_splits labels_num y_distr m c i in
    match mn with
    | None => (Some i, Some r.1, r.2)
    | Some mv => if flt r.1 mv then (Some i, Some r.1, r.2) else (best, mn, r.2)
    end.
Proof.
  unfold probe_step. by destruct (eval_y_counts_per_fold _ _ _ m c i).
Qed.

Lemma probe_fold_spec c m b mv i k :
  well_sized m → length c = labels_num →
  ∃ mv' m',
    foldl (probe_step n_splits labels_num y_distr c) (Some b, Some mv, m) (seq i k)
    = (Some (first_min_from b mv i
               (spec_score labels_num y_distr (counts_view m) c <$> seq i k)),
       Some mv', m')
    ∧ same_reads m' m.
Proof.
  intros W Hc. revert m b mv i W.
  induction k as [|k IH]; intros m b mv i W.
  { by exists mv, m. }
  cbn [seq foldl]. rewrite fmap_cons. cbn [first_min_from].
  rewrite probe_step_unfold.
  destruct (eval_y_counts_per_fold_spec m c i W Hc) as [Hs Hm].
  destruct (eval_y_counts_per_fold _ _ _ m c i) as [e m1]. simpl in *. subst e.
  assert (well_sized m1) as W1 by (eapply well_sized_same_reads; [|done]; by intros ?).
  rewrite <-(counts_view_same_reads _ _ Hm).
  destruct (flt _ mv).
  - destruct (IH m1 i (spec_score labels_num y_distr (counts_view m1) c i) (S i) W1)
      as (mv' & m' & -> & Hm').
    exists mv', m'. split; [done|]. by eapply same_reads_trans.
  - destruct (IH m1 b mv (S i) W1) as (mv' & m' & -> & Hm').
    exists mv', m'. split; [done|]. by eapply same_reads_trans.
Qed.

(** The tables of the source against the state of the specified
    algorithm. *)
Definition refines (t : tables) (st : list (list Z) * list (Z * nat)) : Prop :=
  st.1 = counts_view (y_counts_per_fold t)
  ∧ well_sized (y_counts_per_fold t)
  ∧ groups_per_fold t = fold_sets st.2.

Lemma assign_group_refines t st gc :
  (0 < n_splits)%nat → length gc.2 = labels_num → refines t st →
  refines (assign_group n_splits labels_num y_distr t gc)
          (spec_assign_group n_splits labels_num y_distr st gc).
Proof.
  intros Hn Hc (Hv & W & Hg). destruct st as [counts asg], gc as [g c].
  simpl in *. subst counts.
  assert (range n_splits = 0%nat :: seq 1 (n_splits - 1)) as Hr.
  { unfold range. destruct n_splits; [lia|]. simpl. by rewrite Nat.sub_0_r. }
  unfold assign_group. rewrite Hr. cbn [foldl]. rewrite probe_step_unfold.
  destruct (eval_y_counts_per_fold_spec (y_counts_per_fold t) c 0%nat W Hc) as [Hs Hm].
  destruct (eval_y_counts_per_fold _ _ _ _ c 0%nat) as [e m1]. simpl in *. subst e.
  assert (well_sized m1) as W1 by (eapply well_sized_same_reads; [|done]; by intros ?).
  destruct (probe_fold_spec c m1 0%nat
              (spec_score labels_num y_distr (counts_view (y_counts_per_fold t)) c 0%nat)
              1%nat (n_splits - 1)%nat W1 Hc) as (mv' & m' & -> & Hm').
  rewrite (counts_view_same_reads _ _ Hm).
  set (i := first_min_from _ _ _ _).
  assert (same_reads m' (y_counts_per_fold t)) as Hm2 by by eapply same_reads_trans.
  split; [|split]; simpl.
  - rewrite counts_view_update. by rewrite (counts_view_same_reads _ _ Hm2).
  - intros k. rewrite dd_get_update. case_decide; [|by rewrite Hm2].
    rewrite length_vec_add; rewrite Hm2, W; done.
  - unfold fold_sets. rewrite foldl_snoc. simpl. by rewrite Hg.
Qed.

Lemma counts_view_empty :
  counts_view ∅ = replicate n_splits zeros.
Proof.
  unfold counts_view, range. generalize 0%nat.
  induction n_splits as [|n IH]; intros a; simpl; [done|].
  by rewrite IH.
Qed.

Lemma assign_groups_refines l t st :
  (0 < n_splits)%nat → Forall (λ gc, length gc.2 = labels_num) l → refines t st →
  refines (foldl (assign_group n_splits labels_num y_distr) t l)
          (foldl (spec_assign_group n_splits labels_num y_distr) st l).
Proof.
  intros Hn Hl. revert t st. induction Hl as [|gc l Hc Hl IH]; intros t st R; simpl; [done|].
  apply IH. by apply assign_group_refines.
Qed.

Lemma assign_groups_fold_sets y_counts_per_group :
  (0 < n_splits)%nat →
  Forall (λ gc : Z * list Z, length gc.2 = labels_num) y_counts_per_group →
  groups_per_fold
    (assign_groups n_splits random_state labels_num y_distr y_counts_per_group)
  = fold_sets
      (spec_assignment n_splits random_state labels_num y_distr y_counts_per_group).
Proof.
  intros Hn Hl. unfold assign_groups, spec_assignment.
  rewrite sorted_by_negated_std.
  eapply assign_groups_refines; [done| |].
  - rewrite <-sorted_by_negated_std, sorted_perm, shuffle_perm. done.
  - split; [|split]; simpl; [by rewrite counts_view_empty| |done].
    intros k. unfold dd_get. rewrite lookup_empty. apply length_np_zeros.
Qed.
End refinement.

(** ** The counting loop *)
Section counting.
Context {V : Type} (dflt : V) (f : V → V).
Implicit Types (d : list (Z * V)) (k g : Z).

Lemma elem_of_od_update_keys d k g :
  g ∈ (od_update dflt f d k).*1 ↔ g = k ∨ g ∈ d.*1.
Proof.
  induction d as [|[k' v] d IH]; simpl.
  - rewrite list_elem_of_singleton. set_solver.
  - case_decide; simpl; rewrite ?elem_of_cons, ?IH; naive_solver.
Qed.

Lemma NoDup_od_update_keys d k : NoDup d.*1 → NoDup (od_update dflt f d k).*1.
Proof.
  induction d as [|[k' v] d IH]; simpl.
  - intros _. apply NoDup_singleton.
  - rewrite NoDup_cons. intros [Hk' Hd]. case_decide; simpl.
    + by apply NoDup_cons.
    + apply NoDup_cons. split; [|auto].
      rewrite elem_of_od_update_keys. naive_solver.
Qed.

Lemma Forall_od_update (P : V → Prop) d k :
  P (f dflt) → (∀ v, P v → P (f v)) →
  Forall (λ kv, P kv.2) d → Forall (λ kv, P kv.2) (od_update dflt f d k).
Proof.
  intros Hd Hf. induction 1 as [|[k' v] d Hv Hl IH]; simpl.
  - by repeat constructor.
  - case_decide; constructor; simpl in *; auto.
Qed.
End counting.

Section count_loop.
Variable labels_num : nat.

Lemma count_loop_invariant (l : list (nat * Z)) acc :
  NoDup acc.1.*1 → Forall (λ gc, length gc.2 = labels_num) acc.1 →
  let r := foldl (count_step labels_num) acc l in
  NoDup r.1.*1
  ∧ Forall (λ gc, length gc.2 = labels_num) r.1
  ∧ ∀ g, g ∈ r.1.*1 ↔ g ∈ acc.1.*1 ∨ g ∈ l.*2.
Proof.
  revert acc. induction l as [|[label g] l IH]; intros [d yd] Hnd Hl; simpl.
  { split; [done|]. split; [done|]. set_solver. }
  destruct (IH (od_update (np_zeros labels_num) (vec_incr label) d g,
                dd_update 0 Z.succ yd label)) as (IH1 & IH2 & IH3); simpl.
  - by apply NoDup_od_update_keys.
  - apply (Forall_od_update _ _ (λ v, length v = labels_num)); [| |done].
    + by rewrite length_vec_incr, length_np_zeros.
    + intros v. by rewrite length_vec_incr.
  - split; [done|]. split; [done|]. intros g'. rewrite IH3. simpl.
    rewrite elem_of_od_update_keys, elem_of_cons. naive_solver.
Qed.

Lemma np_max_is_Some y : y ≠ [] → is_Some (np_max y).
Proof. destruct y; [done|]. by eexists. Qed.
End count_loop.

Lemma count_labels_Some y groups :
  y ≠ [] →
  ∃ labels_num y_counts_per_group y_distr,
    count_labels y groups = Some (labels_num, (y_counts_per_group, y_distr))
    ∧ NoDup y_counts_per_group.*1
    ∧ Forall (λ gc, length gc.2 = labels_num) y_counts_per_group
    ∧ ∀ g, g ∈ y_counts_per_group.*1 ↔ g ∈ (zip y groups).*2.
Proof.
  intros Hy. destruct (np_max_is_Some y Hy) as [m Hm].
  unfold count_labels. rewrite Hm. simpl.
  destruct (count_loop_invariant (S m) (zip y groups) ([], ∅)) as (H1 & H2 & H3);
    simpl; [constructor|constructor|].
  destruct (foldl _ _ _) as [d yd]. exists (S m), d, yd.
  split; [done|]. split; [done|]. split; [done|].
  intros g. rewrite H3. simpl. set_solver.
Qed.

(** ** The specified assignment *)
Section assignment.
Context `{Float64} `{PyRandom}.
Variable n_splits : nat.
Variable random_state : Z.
Variable labels_num : nat.
Variable y_distr : gmap nat Z.

Lemma first_min_from_bound best m i scores :
  let r := first_min_from best m i scores in
  r = best ∨ (i ≤ r < i + length scores)%nat.
Proof.
  revert best m i. induction scores as [|s scores IH]; intros best m i; simpl; [by left|].
  destruct (flt s m).
  - destruct (IH i s (S i)) as [->|?]; right; lia.
  - destruct (IH best m (S i)) as [->|?]; [by left|right; lia].
Qed.

Lemma first_min_lt scores : scores ≠ [] → (first_min scores < length scores)%nat.
Proof.
  destruct scores as [|s scores]; [done|]. intros _. simpl.
  destruct (first_min_from_bound 0 s 1 scores) as [->|?]; lia.
Qed.

Lemma desc_insert_perm x l : desc_insert x l ≡ₚ x :: l.
Proof.
  induction l as [|y l IH]; simpl; [done|].
  case_match; [|done]. rewrite IH. apply Permutation_swap.
Qed.

Lemma sort_desc_perm l : sort_desc l ≡ₚ l.
Proof.
  unfold sort_desc. induction l as [|x l IH]; simpl; [done|].
  by rewrite desc_insert_perm, IH.
Qed.

Lemma spec_assign_groups_keys l st :
  (0 < n_splits)%nat →
  let r := foldl (spec_assign_group n_splits labels_num y_distr) st l in
  r.2.*1 = st.2.*1 ++ l.*1
  ∧ (Forall (λ gi, (gi.2 < n_splits)%nat) st.2 →
     Forall (λ gi, (gi.2 < n_splits)%nat) r.2).
Proof.
  intros Hn. revert st. induction l as [|[g c] l IH]; intros [counts asg]; simpl.
  { by rewrite app_nil_r. }
  destruct (IH (tentative counts
                  (first_min (spec_score labels_num y_distr counts c <$> range n_splits)) c,
                asg ++ [(g, first_min (spec_score labels_num y_distr counts c
                                        <$> range n_splits))]))
    as [IH1 IH2]. simpl in *.
  split.
  - rewrite IH1, fmap_app. simpl. by rewrite <-app_assoc.
  - intros Hf. apply IH2. apply Forall_app. split; [done|].
    constructor; [|constructor]. simpl.
    set (scores := spec_score labels_num y_distr counts c <$> range n_splits).
    assert (length scores = n_splits) as Hlen.
    { unfold scores, range. by rewrite length_fmap, length_seq. }
    pose proof (first_min_lt scores) as Hlt. rewrite Hlen in Hlt. apply Hlt.
    intros ->. simpl in Hlen. lia.
Qed.

Lemma spec_assignment_keys y_counts_per_group :
  (0 < n_splits)%nat →
  let a := spec_assignment n_splits random_state labels_num y_distr
                           y_counts_per_group in
  a.*1 ≡ₚ y_counts_per_group.*1 ∧ Forall (λ gi, (gi.2 < n_splits)%nat) a.
Proof.
  intros Hn. unfold spec_assignment.
  destruct (spec_assign_groups_keys
              (sort_desc (shuffle random_state y_counts_per_group))
              (replicate n_splits (np_zeros labels_num), []) Hn) as [H1 H2].
  simpl in *. split; [|by apply H2].
  rewrite H1. by rewrite sort_desc_perm, shuffle_perm.
Qed.

Lemma elem_of_fold_sets (a : list (Z * nat)) g k :
  g ∈ dd_get (∅ : gset Z) (fold_sets a) k ↔ ∃ i, k = Some i ∧ (g, i) ∈ a.
Proof.
  unfold fold_sets. induction a as [|[g' i'] a IH] using rev_ind.
  - simpl. unfold dd_get. rewrite lookup_empty. simpl. set_solver.
  - rewrite foldl_snoc. simpl. rewrite dd_get_update.
    setoid_rewrite elem_of_app. setoid_rewrite list_elem_of_singleton.
    case_decide as Hk.
    + subst k. rewrite elem_of_union, IH, elem_of_singleton. naive_solver.
    + rewrite IH. naive_solver.
Qed.
End assignment.

(** ** What the specified steps compute *)
Section spec_steps.
Context `{Float64}.

Lemma flt_asym a b : flt a b = true → flt b a = false.
Proof.
  intros Hab. destruct (flt b a) eqn:Hba; [|done].
  by rewrite <-(flt_irrefl a), (flt_trans a b a).
Qed.

(** [sort_desc] puts no element before one of strictly greater
    deviation. *)
Definition not_below (x y : Z * list Z) : Prop :=
  flt (own_std x) (own_std y) = false.

Lemma desc_insert_Sorted x l :
  Sorted not_below l → Sorted not_below (desc_insert x l).
Proof.
  induction 1 as [|y l Hl IH Hy]; simpl.
  { by repeat constructor. }
  destruct (flt (own_std x) (own_std y)) eqn:Hxy.
  - constructor; [done|].
    destruct Hy as [|z l Hyz]; simpl.
    + constructor. by apply flt_asym.
    + destruct (flt (own_std x) (own_std z)); constructor;
        [done|by apply flt_asym].
  - by repeat constructor.
Qed.

Lemma sort_desc_Sorted l : Sorted not_below (sort_desc l).
Proof.
  unfold sort_desc. induction l as [|x l IH]; simpl; [constructor|].
  by apply desc_insert_Sorted.
Qed.

(** Equal deviations keep their order: an element is moved behind its
    right neighbours of strictly greater deviation only. *)
Lemma desc_insert_stable x l :
  Forall (λ y, flt (own_std x) (own_std y) = false) l →
  desc_insert x l = x :: l.
Proof. destruct 1 as [|y l Hy _]; simpl; [done|]. by rewrite Hy. Qed.

(** [first_min_from] over a list that extends the part already seen. *)
Lemma first_min_from_spec (seen scores : list f64) best m :
  seen !! best = Some m →
  (∀ s, s ∈ seen → flt s m = false) →
  let r := first_min_from best m (length seen) scores in
  ∃ v, (seen ++ scores) !! r = Some v
       ∧ (∀ s, s ∈ seen ++ scores → flt s v = false)
       ∧ ((∀ j s, (j < best)%nat → seen !! j = Some s → flt m s = true) →
          (∀ a b c, flt a b = true → flt c b = false → flt a c = true) →
          ∀ j s, (j < r)%nat → (seen ++ scores) !! j = Some s → flt v s = true).
Proof.
  revert seen best m. induction scores as [|x scores IH]; intros seen best m Hb Hmin.
  { simpl. exists m. rewrite app_nil_r. eauto. }
  cbn [first_min_from]. destruct (flt x m) eqn:Hx.
  - destruct (IH (seen ++ [x]) (length seen) x) as (v & Hv & Hall & Hfirst).
    { by rewrite lookup_app_r, Nat.sub_diag by lia. }
    { intros s [Hs| ->%list_elem_of_singleton]%elem_of_app; [|apply flt_irrefl].
      destruct (flt s x) eqn:Hsx; [|done].
      by rewrite <-(Hmin s Hs), (flt_trans s x m). }
    rewrite length_app in *. simpl in *.
    rewrite Nat.add_1_r in *. rewrite <-app_assoc in *. simpl in *.
    exists v. split; [done|]. split; [done|].
    intros Hbefore Hlaw. apply Hfirst; [|done].
    intros j s Hj Hs. rewrite lookup_app_l in Hs by done.
    apply (Hlaw x m s); [done|]. apply Hmin. by eapply list_elem_of_lookup_2.
  - destruct (IH (seen ++ [x]) best m) as (v & Hv & Hall & Hfirst).
    { rewrite lookup_app_l; [done|]. by eapply lookup_lt_Some. }
    { by intros s [Hs| ->%list_elem_of_singleton]%elem_of_app; [apply Hmin|]. }
    rewrite length_app in *. simpl in *.
    rewrite Nat.add_1_r in *. rewrite <-app_assoc in *. simpl in *.
    exists v. split; [done|]. split; [done|].
    intros Hbefore Hlaw. apply Hfirst; [|done].
    intros j s Hj Hs. apply (Hbefore j); [done|].
    rewrite lookup_app_l in Hs; [done|].
    etrans; [exact Hj|]. by eapply lookup_lt_Some.
Qed.

(** [first_min] is a fold of minimum score: no fold scores strictly
    less. Where the comparison is that of an order without incomparable
    values, it is the first such fold: it scores strictly less than every
    fold before it. *)
Lemma first_min_spec (scores : list f64) :
  scores ≠ [] →
  ∃ v, scores !! first_min scores = Some v
       ∧ (∀ s, s ∈ scores → flt s v = false)
       ∧ ((∀ a b c, flt a b = true → flt c b = false → flt a c = true) →
          ∀ j s, (j < first_min scores)%nat → scores !! j = Some s →
                 flt v s = true).
Proof.
  destruct scores as [|x scores]; [done|]. intros _.
  destruct (first_min_from_spec [x] scores 0%nat x) as (v & Hv & Hall & Hfirst).
  { done. }
  { intros s ->%list_elem_of_singleton. apply flt_irrefl. }
  exists v. split; [done|]. split; [done|].
  intros Hlaw. apply Hfirst; [|done]. intros j s ?. lia.
Qed.
End spec_steps.

(** ** The pairs [split] yields *)
Section split_properties.
Context `{Float64} `{PyRandom}.
Variable n_splits : nat.
Variable random_state : Z.

Lemma fold_tables_Some y groups :
  y ≠ [] → is_Some (fold_tables n_splits random_state y groups).
Proof.
  intros Hy. destruct (count_labels_Some y groups Hy) as (L & d & yd & E & _).
  unfold fold_tables. rewrite E. by eexists.
Qed.

Lemma split_Some {S} (X : list S) y groups :
  y ≠ [] →
  ∃ t, fold_tables n_splits random_state y groups = Some t
       ∧ split n_splits random_state X y groups
         = Some (fold_pair groups t <$> range n_splits).
Proof.
  intros Hy. destruct (fold_tables_Some y groups Hy) as [t Ht].
  exists t. split; [done|]. unfold split. by rewrite Ht.
Qed.

Lemma split_None {S} (X : list S) y groups :
  split n_splits random_state X y groups = None ↔ y = [].
Proof.
  split.
  - intros E. destruct y as [|a y]; [done|].
    destruct (split_Some X (a :: y) groups) as (t & _ & Ht); [done|congruence].
  - by intros ->.
Qed.

Lemma fold_pair_partition groups t k i :
  let p := fold_pair groups t k in
  (i ∈ p.1 → i ∉ p.2) ∧ (i ∈ p.1 ∨ i ∈ p.2 ↔ (i < length groups)%nat).
Proof.
  unfold fold_pair. simpl. rewrite !elem_of_indices_in. split.
  - intros (g & Hg & Hin) (g' & Hg' & Hin'). simplify_eq. set_solver.
  - split.
    + intros [(g & Hg & _)|(g & Hg & _)]; by eapply lookup_lt_Some.
    + intros Hi. destruct (lookup_lt_is_Some_2 groups i Hi) as [g Hg].
      assert (g ∈ (list_to_set groups : gset Z)) as Hall.
      { apply elem_of_list_to_set. by eapply list_elem_of_lookup_2. }
      destruct (decide (g ∈ dd_get (∅ : gset Z) (groups_per_fold t) (Some k)));
        [right|left]; exists g; set_solver.
Qed.

Lemma NoDup_fst_functional {A B} (l : list (A * B)) x y1 y2 :
  NoDup l.*1 → (x, y1) ∈ l → (x, y2) ∈ l → y1 = y2.
Proof.
  induction l as [|[a b] l IH]; simpl; [by intros _ ?%elem_of_nil|].
  rewrite NoDup_cons, !elem_of_cons. intros [Ha Hl] [E1|H1] [E2|H2].
  - congruence.
  - injection E1 as -> ->. destruct Ha. apply list_elem_of_fmap. by exists (a, y2).
  - injection E2 as -> ->. destruct Ha. apply list_elem_of_fmap. by exists (a, y1).
  - by apply IH.
Qed.

Lemma fold_tables_test_fold y groups t g :
  (0 < n_splits)%nat → length y = length groups →
  fold_tables n_splits random_state y groups = Some t → g ∈ groups →
  ∃ k, (k < n_splits)%nat
       ∧ ∀ k', g ∈ dd_get (∅ : gset Z) (groups_per_fold t) (Some k') ↔ k' = k.
Proof.
  intros Hn Hlen Ht Hg.
  assert (y ≠ []) as Hy.
  { intros ->. destruct groups; [by apply elem_of_nil in Hg|done]. }
  destruct (count_labels_Some y groups Hy) as (L & d & yd & E & Hnd & Hsz & Hkeys).
  unfold fold_tables in Ht. rewrite E in Ht. simpl in Ht. injection Ht as <-.
  rewrite assign_groups_fold_sets by done.
  destruct (spec_assignment_keys n_splits random_state L yd d Hn) as [Hp Hlt].
  set (a := spec_assignment n_splits random_state L yd d) in *.
  assert (g ∈ a.*1) as Hga.
  { rewrite Hp. apply Hkeys. by rewrite snd_zip by lia. }
  apply list_elem_of_fmap in Hga as ([g' k] & -> & Hgk). simpl.
  exists k. split.
  - rewrite Forall_forall in Hlt. by apply (Hlt _ Hgk).
  - intros k'. rewrite elem_of_fold_sets. split.
    + intros (i & [= <-] & Hi). eapply NoDup_fst_functional; [|done..].
      by rewrite Hp.
    + intros ->. by exists k.
Qed.
End split_properties.

(** C1. The greedy fold assignment is the algorithm of the specification:
    the (group, count vector) pairs are shuffled by the seed, sorted in
    descending order of the standard deviation of their own count vector
    (stably), and each group in that order goes to the fold whose
    tentative table has the minimum mean, over the labels, of the standard
    deviation across folds of [fold_count[f][label] / y_distr[label]], the
    first such fold among equals. The group sets the source builds with its
    probe-and-rollback loop are those of [spec_fold_sets]. *)
Theorem greedy_assignment_follows_spec `{Float64} `{PyRandom}
    (n_splits : nat) (random_state : Z) (y : list nat) (groups : list Z) :
  (0 < n_splits)%nat →
  groups_per_fold <$> fold_tables n_splits random_state y groups
  = spec_fold_sets n_splits random_state y groups.
Proof.
  intros Hn. unfold fold_tables, spec_fold_sets.
  destruct y as [|a y]; [done|].
  destruct (count_labels_Some (a :: y) groups) as (L & d & yd & -> & _ & Hsz & _);
    [done|].
  simpl. f_equal. by apply assign_groups_fold_sets.
Qed.

(** C2. A call on a non-empty [y] yields exactly [n_splits] pairs, and in
    each of them the train and the test indices are disjoint and together
    are all the indices [0 .. N-1]. *)
Theorem split_yields_partitions `{Float64} `{PyRandom}
    (n_splits : nat) (random_state : Z) {S} (X : list S)
    (y : list nat) (groups : list Z) :
  y ≠ [] →
  ∃ pairs,
    split n_splits random_state X y groups = Some pairs
    ∧ length pairs = n_splits
    ∧ ∀ train_indices test_indices,
        (train_indices, test_indices) ∈ pairs →
        (∀ i, i ∈ train_indices → i ∉ test_indices)
        ∧ (∀ i, i ∈ train_indices ∨ i ∈ test_indices ↔ (i < length groups)%nat).
Proof.
  intros Hy. destruct (split_Some n_splits random_state X y groups Hy) as (t & _ & ->).
  eexists. split; [done|]. split.
  { unfold range. by rewrite length_fmap, length_seq. }
  intros tr te (k & E & _)%list_elem_of_fmap.
  pose proof (fold_pair_partition groups t k) as Hp. rewrite <-E in Hp. simpl in Hp.
  split; intros i; apply Hp.
Qed.

(** C3. Every group of [groups] is in the test role of exactly one of the
    [n_splits] pairs: there is one fold [k] such that the indices of the
    group's samples are test indices of pair [k] and of no other pair. *)
Theorem group_in_one_test_fold `{Float64} `{PyRandom}
    (n_splits : nat) (random_state : Z) {S} (X : list S)
    (y : list nat) (groups : list Z) (g : Z) :
  (0 < n_splits)%nat → length y = length groups → g ∈ groups →
  ∃ pairs k,
    split n_splits random_state X y groups = Some pairs
    ∧ length pairs = n_splits
    ∧ (k < n_splits)%nat
    ∧ ∀ k' train_indices test_indices i,
        pairs !! k' = Some (train_indices, test_indices) →
        groups !! i = Some g →
        (i ∈ test_indices ↔ k' = k).
Proof.
  intros Hn Hlen Hg.
  assert (y ≠ []) as Hy.
  { intros ->. destruct groups; [by apply elem_of_nil in Hg|done]. }
  destruct (split_Some n_splits random_state X y groups Hy) as (t & Ht & ->).
  destruct (fold_tables_test_fold n_splits random_state y groups t g)
    as (k & Hk & Hfold); [done..|].
  eexists _, k. split; [done|]. split.
  { unfold range. by rewrite length_fmap, length_seq. }
  split; [done|].
  intros k' tr te i Hp Hi. rewrite list_lookup_fmap in Hp.
  destruct (range n_splits !! k') as [j|] eqn:Hj; [|done].
  apply lookup_seq in Hj as [-> _]. simpl in Hp. injection Hp as <- <-.
  rewrite elem_of_indices_in, <-Hfold. split.
  - intros (g' & Hg' & Hin). by simplify_eq.
  - intros Hin. by exists g.
Qed.

(** C4. Two invocations with the same labels, groups, number of splits and
    seed build the same tables and yield the same pairs. The runs may
    differ in the samples [X], which are never read, and in everything
    about their generators except what [Random(seed).shuffle] does to the
    list of groups: nothing else is consulted. *)
Theorem split_deterministic `{Float64} (run1 run2 : PyRandom)
    (n_splits : nat) (random_state : Z) {S1 S2} (X1 : list S1) (X2 : list S2)
    (y : list nat) (groups : list Z) :
  (∀ l : list (Z * list Z),
     @shuffle run1 random_state _ l = @shuffle run2 random_state _ l) →
  @fold_tables _ run1 n_splits random_state y groups
  = @fold_tables _ run2 n_splits random_state y groups
  ∧ @split _ run1 n_splits random_state _ X1 y groups
    = @split _ run2 n_splits random_state _ X2 y groups.
Proof.
  intros Hshuffle.
  assert (@fold_tables _ run1 n_splits random_state y groups
          = @fold_tables _ run2 n_splits random_state y groups) as E.
  { unfold fold_tables. destruct (count_labels y groups) as [[L [d yd]]|]; [|done].
    simpl. unfold assign_groups. by rewrite Hshuffle. }
  split; [done|]. unfold split. by rewrite E.
Qed.

(** C6, as the code has it. [split] validates nothing: it raises on an
    empty [y] only ([np.max]), and otherwise yields [n_splits] pairs, for
    any [n_splits] and any number of groups. *)
Theorem split_raises_only_on_empty `{Float64} `{PyRandom}
    (n_splits : nat) (random_state : Z) {S} (X : list S)
    (y : list nat) (groups : list Z) :
  (split n_splits random_state X y groups = None ↔ y = [])
  ∧ (y = [] ∨ ∃ pairs, split n_splits random_state X y groups = Some pairs
                       ∧ length pairs = n_splits).
Proof.
  split; [apply split_None|].
  destruct y as [|a y]; [by left|right].
  destruct (split_Some n_splits random_state X (a :: y) groups) as (t & _ & ->);
    [done|].
  eexists. split; [done|]. unfold range. by rewrite length_fmap, length_seq.
Qed.

(** C10. The train and the test indices of every pair are in strictly
    ascending order. *)
Theorem split_indices_ascending `{Float64} `{PyRandom}
    (n_splits : nat) (random_state : Z) {S} (X : list S)
    (y : list nat) (groups : list Z) pairs train_indices test_indices :
  split n_splits random_state X y groups = Some pairs →
  (train_indices, test_indices) ∈ pairs →
  StronglySorted lt train_indices ∧ StronglySorted lt test_indices.
Proof.
  unfold split. intros Hs Hin.
  destruct (fold_tables n_splits random_state y groups) as [t|]; [|done].
  simpl in Hs. injection Hs as <-.
  apply list_elem_of_fmap in Hin as (k & [= -> ->] & _).
  split; apply indices_in_ascending.
Qed.

Import IEEE.

Lemma greedy_assignment_follows_spec_witness :
  (0 < 2)%nat
  ∧ groups_per_fold <$> fold_tables 2 1111 [0; 1; 1; 0]%nat [7; 7; 8; 9]
    = spec_fold_sets 2 1111 [0; 1; 1; 0]%nat [7; 7; 8; 9].
Proof.
  split; [lia|]. apply (greedy_assignment_follows_spec 2 1111). lia.
Defined.

Lemma split_yields_partitions_witness :
  [0; 1]%nat ≠ []
  ∧ ∃ pairs,
      split 2 1111 [(); ()] [0; 1]%nat [7; 7] = Some pairs
      ∧ length pairs = 2%nat
      ∧ ∀ train_indices test_indices,
          (train_indices, test_indices) ∈ pairs →
          (∀ i, i ∈ train_indices → i ∉ test_indices)
          ∧ (∀ i, i ∈ train_indices ∨ i ∈ test_indices
                  ↔ (i < length [7; 7])%nat).
Proof.
  split; [done|]. apply (split_yields_partitions 2 1111). done.
Defined.

Lemma group_in_one_test_fold_witness :
  (0 < 2)%nat ∧ length [0; 1; 1; 0]%nat = length [7; 7; 8; 9]
  ∧ 8 ∈ [7; 7; 8; 9]
  ∧ ∃ pairs k,
      split 2 1111 [(); (); (); ()] [0; 1; 1; 0]%nat [7; 7; 8; 9] = Some pairs
      ∧ length pairs = 2%nat
      ∧ (k < 2)%nat
      ∧ ∀ k' train_indices test_indices i,
          pairs !! k' = Some (train_indices, test_indices) →
          [7; 7; 8; 9] !! i = Some 8 →
          (i ∈ test_indices ↔ k' = k).
Proof.
  split; [lia|]. split; [done|]. split; [set_solver|].
  apply (group_in_one_test_fold 2 1111); [lia|done|set_solver].
Defined.

Lemma split_indices_ascending_witness :
  split 2 1111 [(); ()] [0; 1]%nat [7; 7]
  = Some [([], [0; 1]%nat); ([0; 1]%nat, [])]
  ∧ ([0; 1]%nat, []) ∈ [([], [0; 1]%nat); ([0; 1]%nat, [])]
  ∧ StronglySorted lt [0; 1]%nat ∧ StronglySorted lt (@nil nat).
Proof.
  assert (split 2 1111 [(); ()] [0; 1]%nat [7; 7]
          = Some [([], [0; 1]%nat); ([0; 1]%nat, [])]) as E
    by (vm_compute; reflexivity).
  assert (([0; 1]%nat, @nil nat) ∈ [(@nil nat, [0; 1]%nat); ([0; 1]%nat, [])]) as Hin
    by (right; left).
  split; [exact E|]. split; [exact Hin|].
  exact (split_indices_ascending 2 1111 [(); ()] [0; 1]%nat [7; 7] _ _ _ E Hin).
Defined.

Lemma split_deterministic_witness :
  (∀ l : list (Z * list Z),
     @shuffle reversing 1111 _ l = @shuffle reversing 1111 _ l)
  ∧ @fold_tables ieee reversing 2 1111 [0; 1; 1; 0]%nat [7; 7; 8; 9]
    = @fold_tables ieee reversing 2 1111 [0; 1; 1; 0]%nat [7; 7; 8; 9]
  ∧ @split ieee reversing 2 1111 _ [1; 2; 3; 4] [0; 1; 1; 0]%nat [7; 7; 8; 9]
    = @split ieee reversing 2 1111 _ [true; false; false; true]
             [0; 1; 1; 0]%nat [7; 7; 8; 9].
Proof.
  split; [reflexivity|].
  apply (split_deterministic (H:=ieee) reversing reversing 2 1111).
  reflexivity.
Defined.

(** C6 fails as stated: with [n_splits = 1], and with fewer groups than
    folds, the call raises nothing and yields its pairs. *)
Lemma split_accepts_any_n_splits :
  split 1 1111 [(); ()] [0; 1]%nat [7; 7] = Some [([], [0; 1]%nat)]
  ∧ split 0 1111 [(); ()] [0; 1]%nat [7; 7] = Some []
  ∧ split 2 1111 [(); ()] [0; 1]%nat [7; 7]
    = Some [([], [0; 1]%nat); ([0; 1]%nat, [])].
Proof. repeat split; vm_compute; reflexivity. Qed.

Import MainLoop.

(** ** The epoch loop *)
Lemma filter_all {A} (P : A → Prop) `{∀ x, Decision (P x)} (l : list A) :
  Forall P l → filter P l = l.
Proof.
  induction 1 as [|x l Hx Hl IH]; [done|].
  by rewrite filter_cons_True, IH.
Qed.

Section epoch_loop.
Context `{Float64}.
Variable EARLY_STOP_STEPS : nat.
Variable N_EPOCHS : nat.
Variable model_name_loss : string.
Variable val_loss : nat → f64.

Local Abbreviation E := EARLY_STOP_STEPS.
Local Abbreviation loop := (epoch_loop_from EARLY_STOP_STEPS model_name_loss val_loss).

(** The window before epoch [k + 1], when no earlier epoch ended the
    loop: the last [E] of the sentinels followed by the losses so far. *)
Definition window_after (k : nat) : list f64 :=
  drop k (replicate E (of_int 1000) ++ (val_loss <$> seq 1 k)).

Lemma length_window_after k : length (window_after k) = E.
Proof.
  unfold window_after.
  rewrite length_drop, length_app, length_replicate, length_fmap, length_seq. lia.
Qed.

Lemma window_after_S k :
  deque_append E (window_after k) (val_loss (S k)) = window_after (S k).
Proof.
  unfold deque_append. rewrite length_app, length_window_after. simpl.
  replace (E + 1 - E)%nat with 1%nat by lia.
  unfold window_after. rewrite seq_S, fmap_app. simpl.
  rewrite app_assoc. rewrite <-drop_app_le.
  - by rewrite drop_drop, Nat.add_1_r.
  - rewrite length_app, length_replicate, length_fmap, length_seq. lia.
Qed.

Lemma record_epoch_fields v s :
  let s' := record_epoch EARLY_STOP_STEPS model_name_loss v s in
  last_losses_val s' = deque_append E (last_losses_val s) v
  ∧ epochs_trained s' = epochs_trained s
  ∧ stopped_early s' = stopped_early s.
Proof. unfold record_epoch. by repeat case_match. Qed.

Lemma loop_trained_le epochs s :
  (epochs_trained (loop epochs s) ≤ epochs_trained s + length epochs)%nat.
Proof.
  revert s. induction epochs as [|e epochs IH]; intros s; simpl; [lia|].
  case_match; simpl; [lia|].
  etrans; [apply IH|].
  destruct (record_epoch_fields (val_loss e)
              (EpochLoop (best_metrics_fold_loss s) (best_metrics_fold_auc s)
                 (last_losses_val s) (outer s) (S (epochs_trained s))
                 (stopped_early s))) as (_ & -> & _).
  simpl. lia.
Qed.

Lemma loop_not_stopped epochs s :
  stopped_early s = false → stopped_early (loop epochs s) = false →
  epochs_trained (loop epochs s) = (epochs_trained s + length epochs)%nat.
Proof.
  revert s. induction epochs as [|e epochs IH]; intros s Hs; simpl; [lia|].
  case_match; simpl; [done|]. intros Hr.
  destruct (record_epoch_fields (val_loss e)
              (EpochLoop (best_metrics_fold_loss s) (best_metrics_fold_auc s)
                 (last_losses_val s) (outer s) (S (epochs_trained s))
                 (stopped_early s))) as (_ & Ht & Hst).
  rewrite IH; [|by rewrite Hst|done]. rewrite Ht. simpl. lia.
Qed.

(** Without early stopping the loop trains [N_EPOCHS - 1] epochs. *)
Lemma epoch_loop_not_stopped o :
  stopped_early (epoch_loop E N_EPOCHS model_name_loss val_loss o) = false →
  epochs_trained (epoch_loop E N_EPOCHS model_name_loss val_loss o)
  = (N_EPOCHS - 1)%nat.
Proof.
  unfold epoch_loop. intros Hs. rewrite loop_not_stopped; [|done|done].
  simpl. by rewrite length_seq.
Qed.

Section rising.
(** The losses rise from epoch [E] to epoch [2 E]: each of the epochs
    [E + 1 .. 2 E] has a loss above that of the epoch before. *)
Hypothesis HE : (1 ≤ E)%nat.
Hypothesis rising :
  ∀ k, (E ≤ k < 2 * E)%nat → flt (val_loss k) (val_loss (S k)) = true.

Lemma rising_lt j k :
  (E ≤ j < k)%nat → (k ≤ 2 * E)%nat → flt (val_loss j) (val_loss k) = true.
Proof.
  intros [Hj Hjk] Hk. induction k as [|k IH]; [lia|].
  destruct (decide (j = k)) as [->|Hne]; [apply rising; lia|].
  eapply flt_trans; [apply IH; lia|apply rising; lia].
Qed.

Lemma window_before_2E :
  window_after (2 * E - 1) = val_loss <$> seq E E.
Proof.
  unfold window_after.
  rewrite drop_app_ge by (rewrite length_replicate; lia).
  rewrite length_replicate, <-fmap_drop, drop_seq. f_equal.
  f_equal; lia.
Qed.

Lemma worse_at_2E :
  worse_than_window E (val_loss (2 * E)) (window_after (2 * E - 1)) = true.
Proof.
  unfold worse_than_window. apply bool_decide_eq_true.
  rewrite window_before_2E.
  rewrite filter_all; [by rewrite length_fmap, length_seq|].
  apply Forall_forall. intros v (j & -> & Hj)%list_elem_of_fmap.
  apply elem_of_seq in Hj. apply rising_lt; lia.
Qed.

Lemma loop_stops_by_2E n k s :
  (k < 2 * E)%nat → last_losses_val s = window_after k →
  epochs_trained s = k →
  let r := loop (seq (S k) n) s in
  (epochs_trained r ≤ 2 * E)%nat
  ∧ ((2 * E ≤ k + n)%nat → stopped_early r = true).
Proof.
  revert k s. induction n as [|n IH]; intros k s Hk Hw Ht; simpl.
  { split; lia. }
  case_match eqn:Hworse; simpl.
  { split; [lia|done]. }
  assert (S k < 2 * E)%nat as Hk'.
  { destruct (decide (S k = 2 * E)%nat) as [E2|]; [|lia].
    rewrite Hw, E2 in Hworse. replace k with (2 * E - 1)%nat in Hworse by lia.
    by rewrite worse_at_2E in Hworse. }
  set (s1 := EpochLoop _ _ _ _ _ _).
  destruct (record_epoch_fields (val_loss (S k)) s1) as (Hw1 & Ht1 & _).
  destruct (IH (S k) (record_epoch E model_name_loss (val_loss (S k)) s1))
    as [IH1 IH2]; [done| |by rewrite Ht1; simpl; rewrite Ht|].
  { rewrite Hw1. simpl. rewrite Hw. apply window_after_S. }
  split; [done|]. intros ?. apply IH2. lia.
Qed.
End rising.
End epoch_loop.

(** C7. When the validation losses do not increase over the first
    [EARLY_STOP_STEPS] epochs and then rise strictly in each of the next
    [EARLY_STOP_STEPS] epochs, the epoch loop trains at most
    [2 * EARLY_STOP_STEPS] epochs, and it ends by early stopping if
    [range(1, N_EPOCHS)] reaches that far. *)
Theorem early_stopping_within_two_windows `{Float64}
    (EARLY_STOP_STEPS N_EPOCHS : nat) (model_name_loss : string)
    (val_loss : nat → f64) (o : outer_fold) :
  (1 ≤ EARLY_STOP_STEPS)%nat →
  (∀ k, (1 ≤ k < EARLY_STOP_STEPS)%nat →
        flt (val_loss k) (val_loss (S k)) = false) →
  (∀ k, (EARLY_STOP_STEPS ≤ k < 2 * EARLY_STOP_STEPS)%nat →
        flt (val_loss k) (val_loss (S k)) = true) →
  (epochs_trained
     (epoch_loop EARLY_STOP_STEPS N_EPOCHS model_name_loss val_loss o)
   ≤ 2 * EARLY_STOP_STEPS)%nat
  ∧ ((2 * EARLY_STOP_STEPS < N_EPOCHS)%nat →
     stopped_early
       (epoch_loop EARLY_STOP_STEPS N_EPOCHS model_name_loss val_loss o)
     = true).
Proof.
  intros HE _ Hrise. unfold epoch_loop.
  destruct (loop_stops_by_2E EARLY_STOP_STEPS model_name_loss val_loss HE Hrise
              (N_EPOCHS - 1) 0 (epoch_loop_init EARLY_STOP_STEPS o))
    as [H1 H2]; [lia| |done|].
  { simpl. unfold window_after. simpl. by rewrite app_nil_r. }
  split; [done|]. intros ?. apply H2. lia.
Qed.


(** Losses 5, 4, 4.5, 4.75 with a window of two: the loop stops in epoch
    4. *)
Definition falling_then_rising (epoch : nat) : float :=
  match epoch with
  | 1%nat => 5 | 2%nat => 4 | 3%nat => 4.5 | 4%nat => 4.75 | _ => 0
  end%float.

Lemma early_stopping_within_two_windows_witness :
  (1 ≤ 2)%nat
  ∧ (∀ k, (1 ≤ k < 2)%nat →
       flt (falling_then_rising k) (falling_then_rising (S k)) = false)
  ∧ (∀ k, (2 ≤ k < 2 * 2)%nat →
       flt (falling_then_rising k) (falling_then_rising (S k)) = true)
  ∧ (epochs_trained (epoch_loop 2 100 "m" falling_then_rising outer_fold_init)
     ≤ 2 * 2)%nat
  ∧ ((2 * 2 < 100)%nat →
     stopped_early (epoch_loop 2 100 "m" falling_then_rising outer_fold_init)
     = true).
Proof.
  assert (∀ k, (1 ≤ k < 2)%nat →
            flt (falling_then_rising k) (falling_then_rising (S k)) = false) as H1.
  { intros k Hk. assert (k = 1%nat) as -> by lia. vm_compute. reflexivity. }
  assert (∀ k, (2 ≤ k < 2 * 2)%nat →
            flt (falling_then_rising k) (falling_then_rising (S k)) = true) as H2.
  { intros k Hk. assert (k = 2 ∨ k = 3)%nat as [-> | ->] by lia;
      vm_compute; reflexivity. }
  split; [lia|]. split; [exact H1|]. split; [exact H2|].
  apply (early_stopping_within_two_windows (H:=ieee) 2 100 "m"
           falling_then_rising outer_fold_init); [lia|exact H1|exact H2].
Defined.

(** C9, at [--num_epochs 100] with a loss that never triggers early
    stopping: 99 epochs are trained, not 100. *)
Theorem num_epochs_100_trains_99 :
  epochs_trained (epoch_loop 30 100 "m" (λ _, 0.5%float) outer_fold_init)
  = 99%nat
  ∧ stopped_early (epoch_loop 30 100 "m" (λ _, 0.5%float) outer_fold_init)
    = false.
Proof. split; vm_compute; reflexivity. Qed.

(** ** Checkpoints

    What the controller saves and records, as functions of the sequence
    of validation values. *)
Section checkpoints.
Context `{Float64}.
Variable EARLY_STOP_STEPS : nat.
Variable N_EPOCHS : nat.

(** The losses of the epochs that do not end the loop by early stopping,
    in order. *)
Fixpoint evaluated_from (val_loss : nat → f64) (window : list f64)
    (epochs : list nat) : list f64 :=
  match epochs with
  | [] => []
  | epoch :: epochs' =>
      let v := val_loss epoch in
      if worse_than_window EARLY_STOP_STEPS v window then []
      else v :: evaluated_from val_loss
                  (deque_append EARLY_STOP_STEPS window v) epochs'
  end.

Definition evaluated (val_loss : nat → f64) : list f64 :=
  evaluated_from val_loss (replicate EARLY_STOP_STEPS (of_int 1000))
                 (seq 1 (N_EPOCHS - 1)).

(** The (path, value) entries whose value is strictly better than the
    best before them, the best starting as [b]. *)
Fixpoint improvements (better : f64 → f64 → bool) (b : f64)
    (l : list (string * f64)) : list (string * f64) :=
  match l with
  | [] => []
  | nv :: l' =>
      if better nv.2 b then nv :: improvements better nv.2 l'
      else improvements better b l'
  end.

(** The best value and the path that holds it after the entries [l]. *)
Definition best_of (better : f64 → f64 → bool) (init : f64 * option string)
    (l : list (string * f64)) : f64 * option string :=
  foldl (λ acc nv, if better nv.2 acc.1 then (nv.2, Some nv.1) else acc) init l.

Definition lower : f64 → f64 → bool := flt.
Definition higher : f64 → f64 → bool := λ a b, flt b a.

(** What one combination saves for [loss]: the improvements on the
    sentinel 1000 among its own evaluated losses. *)
Definition loss_saves (c : candidate) : list (string * f64) :=
  match c with
  | EpochTrained name val_loss =>
      improvements lower (of_int 1000) ((λ v, (name, v)) <$> evaluated val_loss)
  | BoostedTrees _ _ => []
  end.

Definition auc_scores (c : candidate) : list (string * f64) :=
  match c with
  | EpochTrained _ _ => []
  | BoostedTrees name auc => [(name, auc)]
  end.

Lemma improvements_app better b l1 l2 :
  improvements better b (l1 ++ l2)
  = improvements better b l1
    ++ improvements better (best_of better (b, None) l1).1 l2.
Proof.
  unfold best_of. generalize (@None string).
  revert b. induction l1 as [|nv l1 IH]; intros b nm; simpl; [done|].
  destruct (better nv.2 b); simpl.
  - by rewrite (IH nv.2 (Some nv.1)).
  - by rewrite (IH b nm).
Qed.

Lemma best_of_fst better b nm nm' l :
  (best_of better (b, nm) l).1 = (best_of better (b, nm') l).1.
Proof.
  unfold best_of. revert b nm nm'.
  induction l as [|nv l IH]; intros b nm nm'; simpl; [done|].
  destruct (better nv.2 b); simpl; auto.
Qed.

Local Abbreviation loop name val_loss :=
  (epoch_loop_from EARLY_STOP_STEPS name val_loss).

Lemma loop_outer name val_loss epochs s :
  let o := outer s in
  let o' := outer (loop name val_loss epochs s) in
  let saves :=
    improvements lower (best_metrics_fold_loss s)
      ((λ v, (name, v)) <$> evaluated_from val_loss (last_losses_val s) epochs) in
  saved_loss o' = saved_loss o ++ saves
  ∧ (best_outer_metric_loss o', best_model_name_outer_fold_loss o')
    = best_of lower (best_outer_metric_loss o, best_model_name_outer_fold_loss o)
              saves
  ∧ saved_auc o' = saved_auc o
  ∧ best_outer_metric_auc o' = best_outer_metric_auc o
  ∧ best_model_name_outer_fold_auc o' = best_model_name_outer_fold_auc o.
Proof.
  revert s. induction epochs as [|e epochs IH]; intros s; simpl.
  { by rewrite app_nil_r. }
  destruct (worse_than_window _ _ _); simpl.
  { by rewrite app_nil_r. }
  set (s1 := EpochLoop _ _ _ _ _ _).
  destruct (IH (record_epoch EARLY_STOP_STEPS name (val_loss e) s1))
    as (IH1 & IH2 & IH3 & IH4 & IH5).
  rewrite IH1, IH2, IH3, IH4, IH5. clear IH IH1 IH2 IH3 IH4 IH5.
  unfold record_epoch, lower. simpl.
  destruct (flt (val_loss e) (best_metrics_fold_loss s)); simpl; [|done].
  destruct (flt (val_loss e) (best_outer_metric_loss (outer s))); simpl;
    by rewrite <-app_assoc.
Qed.

Lemma run_candidate_outer o c :
  let o' := run_candidate EARLY_STOP_STEPS N_EPOCHS o c in
  saved_loss o' = saved_loss o ++ loss_saves c
  ∧ (best_outer_metric_loss o', best_model_name_outer_fold_loss o')
    = best_of lower (best_outer_metric_loss o, best_model_name_outer_fold_loss o)
              (loss_saves c)
  ∧ saved_auc o'
    = saved_auc o ++ improvements higher (best_outer_metric_auc o) (auc_scores c)
  ∧ (best_outer_metric_auc o', best_model_name_outer_fold_auc o')
    = best_of higher (best_outer_metric_auc o, best_model_name_outer_fold_auc o)
              (auc_scores c).
Proof.
  destruct c as [name val_loss|name auc]; simpl.
  - destruct (loop_outer name val_loss (seq 1 (N_EPOCHS - 1))
                (epoch_loop_init EARLY_STOP_STEPS o)) as (H1 & H2 & H3 & H4 & H5).
    unfold epoch_loop. simpl in *. rewrite H1, H2, H3, H4, H5.
    rewrite app_nil_r. repeat split; reflexivity.
  - unfold fit_once, higher. destruct (flt _ auc); simpl;
      rewrite ?app_nil_r; repeat split; reflexivity.
Qed.

Lemma run_grid_from grid o :
  let o' := foldl (run_candidate EARLY_STOP_STEPS N_EPOCHS) o grid in
  saved_loss o' = saved_loss o ++ (grid ≫= loss_saves)
  ∧ (best_outer_metric_loss o', best_model_name_outer_fold_loss o')
    = best_of lower (best_outer_metric_loss o, best_model_name_outer_fold_loss o)
              (grid ≫= loss_saves)
  ∧ saved_auc o'
    = saved_auc o
      ++ improvements higher (best_outer_metric_auc o) (grid ≫= auc_scores)
  ∧ (best_outer_metric_auc o', best_model_name_outer_fold_auc o')
    = best_of higher (best_outer_metric_auc o, best_model_name_outer_fold_auc o)
              (grid ≫= auc_scores).
Proof.
  revert o. induction grid as [|c grid IH]; intros o; simpl.
  { by rewrite !app_nil_r. }
  destruct (IH (run_candidate EARLY_STOP_STEPS N_EPOCHS o c)) as (H1 & H2 & H3 & H4).
  destruct (run_candidate_outer o c) as (C1 & C2 & C3 & C4).
  simpl in C1, C2, C3, C4.
  split; [|split; [|split]].
  - rewrite H1, C1. by rewrite <-app_assoc.
  - rewrite H2, C2. unfold best_of. by rewrite foldl_app.
  - rewrite H3, C3, <-app_assoc. f_equal. rewrite improvements_app. f_equal.
    f_equal. pose proof (f_equal fst C4) as C5. simpl in C5. rewrite C5.
    apply best_of_fst.
  - rewrite H4, C4. unfold best_of. by rewrite foldl_app.
Qed.
End checkpoints.

(** C8, as the code has it. For [loss], a combination saves a checkpoint
    exactly at the evaluated losses that are strictly below the best loss
    of that combination so far, which starts at 1000 for every
    combination; the best model name for [loss] is the path of the last
    save that was also strictly below the best of the whole outer fold
    (which starts at 1000). For [auc], which only the boosted-tree
    baseline scores, a model is saved and its path recorded exactly when
    its value is strictly above the best of the outer fold (which starts
    at -1000). *)
Theorem checkpoints_of_grid `{Float64} (EARLY_STOP_STEPS N_EPOCHS : nat)
    (grid : list candidate) :
  saved_loss (run_grid EARLY_STOP_STEPS N_EPOCHS grid)
  = grid ≫= loss_saves EARLY_STOP_STEPS N_EPOCHS
  ∧ (best_outer_metric_loss (run_grid EARLY_STOP_STEPS N_EPOCHS grid),
     best_model_name_outer_fold_loss (run_grid EARLY_STOP_STEPS N_EPOCHS grid))
    = best_of lower (of_int 1000, None)
              (grid ≫= loss_saves EARLY_STOP_STEPS N_EPOCHS)
  ∧ saved_auc (run_grid EARLY_STOP_STEPS N_EPOCHS grid)
    = improvements higher (fneg (of_int 1000)) (grid ≫= auc_scores)
  ∧ (best_outer_metric_auc (run_grid EARLY_STOP_STEPS N_EPOCHS grid),
     best_model_name_outer_fold_auc (run_grid EARLY_STOP_STEPS N_EPOCHS grid))
    = best_of higher (fneg (of_int 1000), None) (grid ≫= auc_scores).
Proof.
  apply (run_grid_from EARLY_STOP_STEPS N_EPOCHS grid outer_fold_init).
Qed.


(** The specification's example: losses 0.9, 0.7, 0.8, 0.6 in one
    combination give three saves and 0.6 as the best. *)
Definition example_losses (epoch : nat) : float :=
  match epoch with
  | 1%nat => 0.9 | 2%nat => 0.7 | 3%nat => 0.8 | _ => 0.6
  end%float.

Example checkpoints_of_example_losses :
  saved_loss (run_grid 30 5 [EpochTrained "m" example_losses])
  = [("m", 0.9); ("m", 0.7); ("m", 0.6)]%float
  ∧ best_outer_metric_loss (run_grid 30 5 [EpochTrained "m" example_losses])
    = 0.6%float.
Proof. split; vm_compute; reflexivity. Qed.

(** C8 fails as stated: the second combination's loss 0.7 does not
    improve on the 0.5 of the first, and its model is saved all the same. *)
Lemma checkpoint_saved_without_fold_improvement :
  saved_loss (run_grid 30 2 [EpochTrained "a" (λ _, 0.5%float);
                             EpochTrained "b" (λ _, 0.7%float)])
  = [("a", 0.5); ("b", 0.7)]%float
  ∧ best_outer_metric_loss
      (run_grid 30 2 [EpochTrained "a" (λ _, 0.5%float);
                      EpochTrained "b" (λ _, 0.7%float)])
    = 0.5%float
  ∧ best_model_name_outer_fold_loss
      (run_grid 30 2 [EpochTrained "a" (λ _, 0.5%float);
                      EpochTrained "b" (λ _, 0.7%float)])
    = Some "a".
Proof. repeat split; vm_compute; reflexivity. Qed.

(** ** The composite label encoder *)
Section strings.
Implicit Types (s t : string) (c : ascii).

Lemma length_string_app s t :
  String.length (s +:+ t) = (String.length s + String.length t)%nat.
Proof. induction s as [|c s IH]; simpl; [done|]. by rewrite IH. Qed.

Lemma string_app_inj_length s1 s2 t1 t2 :
  s1 +:+ t1 = s2 +:+ t2 → String.length s1 = String.length s2 →
  s1 = s2 ∧ t1 = t2.
Proof.
  revert s2. induction s1 as [|c s1 IH]; intros [|c' s2] E Hl;
    simplify_eq/=; [done|].
  destruct (IH s2) as [-> ->]; done.
Qed.

(** The first character is there and is not a space. *)
Definition starts_solid s : Prop :=
  match s with
  | EmptyString => False
  | String c _ => c ≠ " "%char
  end.

Lemma pretty_N_char_solid x s : starts_solid (String (pretty_N_char x) s).
Proof. simpl. unfold pretty_N_char. by repeat case_match. Qed.

Lemma pretty_N_go_solid x s : starts_solid s → starts_solid (pretty_N_go x s).
Proof.
  revert s. induction (N.lt_wf_0 x) as [x _ IH]; intros s Hs.
  assert (x = 0 ∨ 0 < x)%N as [->|?] by lia.
  - by rewrite pretty_N_go_0.
  - rewrite pretty_N_go_step by done. apply IH.
    + by apply N.div_lt.
    + apply pretty_N_char_solid.
Qed.

Lemma pretty_Z_solid (z : Z) : starts_solid (pretty z).
Proof.
  assert (∀ p, starts_solid (pretty (N.pos p))) as Hpos.
  { intros p. unfold pretty, pretty_N. rewrite decide_False by done.
    rewrite pretty_N_go_step by lia.
    apply pretty_N_go_solid, pretty_N_char_solid. }
  destruct z as [|p|p]; [done|apply Hpos|done].
Qed.

Lemma length_spaces k : String.length (spaces k) = k.
Proof. induction k; simpl; auto. Qed.

Lemma length_rjust w s :
  (String.length s ≤ w)%nat → String.length (rjust w s) = w.
Proof. intros ?. unfold rjust. rewrite length_string_app, length_spaces. lia. Qed.

Lemma spaces_app_inj k k' s s' :
  starts_solid s → starts_solid s' →
  spaces k +:+ s = spaces k' +:+ s' → s = s'.
Proof.
  intros Hs Hs'. revert k'. induction k as [|k IH]; intros [|k'] E.
  - exact E.
  - change (s = String " " (spaces k' +:+ s')) in E. subst s. by destruct Hs.
  - change (String " " (spaces k +:+ s) = s') in E. subst s'. by destruct Hs'.
  - change (String " " (spaces k +:+ s) = String " " (spaces k' +:+ s')) in E.
    injection E as E. by apply (IH k').
Qed.

Lemma rjust_inj w w' s s' :
  starts_solid s → starts_solid s' → rjust w s = rjust w' s' → s = s'.
Proof. apply spaces_app_inj. Qed.

Lemma numpy_str_row_inj : Inj (=) (=) numpy_str_row.
Proof.
  intros [a b] [a' b']. unfold numpy_str_row. simpl.
  set (w := Nat.max _ _). set (w' := Nat.max _ _).
  intros E. injection E as E.
  assert (String.length (rjust w (pretty a)) = w) as L1
    by (apply length_rjust; lia).
  assert (String.length (rjust w (pretty b)) = w) as L2
    by (apply length_rjust; lia).
  assert (String.length (rjust w' (pretty a')) = w') as L1'
    by (apply length_rjust; lia).
  assert (String.length (rjust w' (pretty b')) = w') as L2'
    by (apply length_rjust; lia).
  assert (w = w') as Hw.
  { apply (f_equal String.length) in E.
    rewrite !length_string_app in E. simpl in E.
    rewrite !length_string_app in E. simpl in E. lia. }
  apply string_app_inj_length in E as [Ea E]; [|lia].
  injection E as E.
  apply string_app_inj_length in E as [Eb _]; [|lia].
  apply rjust_inj in Ea; [|apply pretty_Z_solid..].
  apply rjust_inj in Eb; [|apply pretty_Z_solid..].
  f_equal; by apply (inj pretty).
Qed.
End strings.

Section label_encoder.
Implicit Types (l classes : list string) (s : string).

Lemma np_unique_perm l : np_unique l ≡ₚ remove_dups l.
Proof. apply merge_sort_Permutation. Qed.

Lemma NoDup_np_unique l : NoDup (np_unique l).
Proof. rewrite np_unique_perm. apply NoDup_remove_dups. Qed.

Lemma elem_of_np_unique l s : s ∈ np_unique l ↔ s ∈ l.
Proof. rewrite np_unique_perm. apply elem_of_remove_dups. Qed.

Lemma index_of_lookup classes s :
  s ∈ classes → classes !! index_of s classes = Some s.
Proof.
  induction classes as [|c classes IH]; simpl; [by intros ?%elem_of_nil|].
  rewrite elem_of_cons. case_decide; [by subst|]. intros [?|?]; [done|auto].
Qed.

Lemma index_of_inj classes s s' :
  s ∈ classes → s' ∈ classes →
  index_of s classes = index_of s' classes → s = s'.
Proof.
  intros Hs%index_of_lookup Hs'%index_of_lookup E. rewrite E in Hs. congruence.
Qed.

Lemma length_remove_dups_fmap {A B} `{EqDecision A, EqDecision B}
    (f : A → B) `{!Inj (=) (=) f} (l : list A) :
  length (remove_dups (f <$> l)) = length (remove_dups l).
Proof.
  induction l as [|x l IH]; simpl; [done|].
  case_decide as Hf; case_decide as Hx; simpl; auto.
  - destruct Hx. apply list_elem_of_fmap in Hf as (x' & E & Hx').
    by apply (inj f) in E as ->.
  - destruct Hf. by apply list_elem_of_fmap_2.
Qed.

Lemma fit_transform_spec l :
  let enc := fit_transform l in
  length enc = length l
  ∧ (∀ i j s s' e e',
       l !! i = Some s → l !! j = Some s' →
       enc !! i = Some e → enc !! j = Some e' → (e = e' ↔ s = s'))
  ∧ (∀ k, k ∈ enc ↔ (k < length (remove_dups l))%nat).
Proof.
  unfold fit_transform. simpl. split; [by rewrite length_fmap|]. split.
  - intros i j s s' e e' Hs Hs'. rewrite !list_lookup_fmap, Hs, Hs'. simpl.
    intros [= <-] [= <-]. split; [|by intros ->].
    apply index_of_inj; apply elem_of_np_unique; by eapply list_elem_of_lookup_2.
  - intros k. rewrite <-(Permutation_length (np_unique_perm l)).
    rewrite list_elem_of_fmap. split.
    + intros (s & -> & Hs). eapply lookup_lt_Some, index_of_lookup.
      by apply elem_of_np_unique.
    + intros Hk. destruct (lookup_lt_is_Some_2 _ _ Hk) as [s Hs].
      exists s. split; [|by eapply elem_of_np_unique, list_elem_of_lookup_2].
      eapply NoDup_lookup; [apply NoDup_np_unique|exact Hs|].
      apply index_of_lookup. by eapply list_elem_of_lookup_2.
Qed.
End label_encoder.

(** C5. On columns of equal length the encoder returns one code per
    sample; two samples get the same code exactly when their (class label,
    auxiliary) pairs are equal; and the codes are the numbers below the
    number of distinct pairs, every one of them used. *)
Theorem merge_y_and_others_encodes_pairs (ys indices : list Z) :
  length ys = length indices →
  ∃ enc,
    merge_y_and_others ys indices = Some enc
    ∧ length enc = length ys
    ∧ (∀ i j a b a' b' e e',
         ys !! i = Some a → indices !! i = Some b →
         ys !! j = Some a' → indices !! j = Some b' →
         enc !! i = Some e → enc !! j = Some e' →
         (e = e' ↔ (a, b) = (a', b')))
    ∧ (∀ k, k ∈ enc ↔ (k < length (remove_dups (zip ys indices)))%nat).
Proof.
  intros Hlen. unfold merge_y_and_others, torch_cat_columns.
  rewrite decide_True by done. simpl. eexists. split; [done|].
  destruct (fit_transform_spec (numpy_str_row <$> zip ys indices))
    as (H1 & H2 & H3).
  split; [|split].
  - rewrite H1, length_fmap, length_zip_with. lia.
  - intros i j a b a' b' e e' Ha Hb Ha' Hb' He He'.
    rewrite (H2 i j (numpy_str_row (a, b)) (numpy_str_row (a', b')) e e'); try done.
    + split; [apply numpy_str_row_inj|by intros ->].
    + rewrite list_lookup_fmap.
      by rewrite (proj2 (lookup_zip_with_Some pair ys indices i (a, b)))
        by (by exists a, b).
    + rewrite list_lookup_fmap.
      by rewrite (proj2 (lookup_zip_with_Some pair ys indices j (a', b')))
        by (by exists a', b').
  - intros k. rewrite H3.
    by rewrite (@length_remove_dups_fmap _ _ _ _ numpy_str_row numpy_str_row_inj).
Qed.

(** Five samples: class labels and session indices. *)
Definition example_ys : list Z := [0; 1; 0; 1; 1].
Definition example_indices : list Z := [0; 0; 12; -3; 0].

Lemma merge_y_and_others_encodes_pairs_witness :
  length example_ys = length example_indices
  ∧ ∃ enc,
      merge_y_and_others example_ys example_indices = Some enc
      ∧ length enc = length example_ys
      ∧ (∀ i j a b a' b' e e',
           example_ys !! i = Some a → example_indices !! i = Some b →
           example_ys !! j = Some a' → example_indices !! j = Some b' →
           enc !! i = Some e → enc !! j = Some e' →
           (e = e' ↔ (a, b) = (a', b')))
      ∧ (∀ k, k ∈ enc
              ↔ (k < length (remove_dups (zip example_ys example_indices)))%nat).
Proof.
  split; [reflexivity|].
  apply (merge_y_and_others_encodes_pairs example_ys example_indices).
  reflexivity.
Defined.

(** The codes of that input: the rows print as "[0 0]", "[1 0]",
    "[ 0 12]", "[ 1 -3]", "[1 0]". *)
Example merge_y_and_others_example :
  merge_y_and_others example_ys example_indices = Some [2; 3; 0; 1; 3]%nat.
Proof. vm_compute. reflexivity. Qed.


(** * Further properties *)

(** ** Every sample is tested once *)
Lemma snd_zip_take {A B} (l : list A) (k : list B) :
  (zip l k).*2 = take (length l) k.
Proof.
  revert k. induction l as [|a l IH]; intros [|b k]; simpl; [done..|].
  by rewrite IH.
Qed.

Section folds.
Context `{Float64} `{PyRandom}.
Variable n_splits : nat.
Variable random_state : Z.

(** The groups the folds hold are groups that were counted. *)
Lemma fold_tables_groups_counted y groups t k g :
  (0 < n_splits)%nat →
  fold_tables n_splits random_state y groups = Some t →
  g ∈ dd_get (∅ : gset Z) (groups_per_fold t) (Some k) →
  g ∈ take (length y) groups.
Proof.
  intros Hn Ht Hg.
  assert (y ≠ []) as Hy by (by intros ->).
  destruct (count_labels_Some y groups Hy) as (L & d & yd & E & Hnd & Hsz & Hkeys).
  unfold fold_tables in Ht. rewrite E in Ht. simpl in Ht. injection Ht as <-.
  rewrite assign_groups_fold_sets in Hg by done.
  apply elem_of_fold_sets in Hg as (i & _ & Hi).
  destruct (spec_assignment_keys n_splits random_state L yd d Hn) as [Hp _].
  rewrite <-snd_zip_take. apply Hkeys. rewrite <-Hp.
  apply list_elem_of_fmap. by exists (g, i).
Qed.
End folds.

(** X1. With at least one fold and one label per sample, every sample is
    a test sample of exactly one of the pairs and a train sample of all
    the others. *)
Theorem sample_tested_once `{Float64} `{PyRandom}
    (n_splits : nat) (random_state : Z) {S} (X : list S)
    (y : list nat) (groups : list Z) (i : nat) :
  (0 < n_splits)%nat → length y = length groups → (i < length groups)%nat →
  ∃ pairs k,
    split n_splits random_state X y groups = Some pairs
    ∧ (k < n_splits)%nat
    ∧ ∀ k' train_indices test_indices,
        pairs !! k' = Some (train_indices, test_indices) →
        (i ∈ test_indices ↔ k' = k) ∧ (i ∈ train_indices ↔ k' ≠ k).
Proof.
  intros Hn Hlen Hi.
  destruct (lookup_lt_is_Some_2 groups i Hi) as [g Hg].
  assert (y ≠ []) as Hy by (intros ->; by destruct groups).
  destruct (split_Some n_splits random_state X y groups Hy) as (t & Ht & ->).
  destruct (fold_tables_test_fold n_splits random_state y groups t g)
    as (k & Hk & Hfold); [done|done|done|by eapply list_elem_of_lookup_2|].
  eexists _, k. split; [done|]. split; [done|].
  intros k' tr te Hp. rewrite list_lookup_fmap in Hp.
  destruct (range n_splits !! k') as [j|] eqn:Hj; [|done].
  apply lookup_seq in Hj as [-> _]. simpl in Hp.
  assert (fold_pair groups t k' = (tr, te)) as Hp' by congruence.
  pose proof (fold_pair_partition groups t k' i) as Hpart.
  cbv zeta in Hpart. rewrite Hp' in Hpart. destruct Hpart as [Hdisj Hcover].
  simpl in Hdisj, Hcover.
  assert (i ∈ te ↔ k' = k) as Hin.
  { unfold fold_pair in Hp'. injection Hp' as _ <-.
    rewrite elem_of_indices_in, <-Hfold. split.
    - intros (g' & Hg' & Hin). by simplify_eq.
    - intros Hin. by exists g. }
  split; [done|]. split.
  - intros Htrain ->. apply (Hdisj Htrain). by apply Hin.
  - intros Hne. destruct (proj2 Hcover Hi) as [?|Hte']; [done|].
    by apply Hin in Hte'.
Qed.


Lemma sample_tested_once_witness :
  (0 < 2)%nat ∧ length [0; 1; 1; 0]%nat = length [7; 7; 8; 9]
  ∧ (2 < length [7; 7; 8; 9])%nat
  ∧ ∃ pairs k,
      split 2 1111 [(); (); (); ()] [0; 1; 1; 0]%nat [7; 7; 8; 9] = Some pairs
      ∧ (k < 2)%nat
      ∧ ∀ k' train_indices test_indices,
          pairs !! k' = Some (train_indices, test_indices) →
          (2%nat ∈ test_indices ↔ k' = k) ∧ (2%nat ∈ train_indices ↔ k' ≠ k).
Proof.
  split; [lia|]. split; [done|]. split; [simpl; lia|].
  apply (sample_tested_once 2 1111); [lia|done|simpl; lia].
Defined.

(** X2. A group that occurs only beyond the end of [y] (which
    [zip(y, groups)] never reaches) is counted in no fold: its samples are
    train samples of every pair and test samples of none. *)
Theorem uncounted_group_never_tested `{Float64} `{PyRandom}
    (n_splits : nat) (random_state : Z) {S} (X : list S)
    (y : list nat) (groups : list Z) (g : Z) pairs
    train_indices test_indices (i : nat) :
  g ∉ take (length y) groups →
  split n_splits random_state X y groups = Some pairs →
  (train_indices, test_indices) ∈ pairs →
  groups !! i = Some g →
  i ∈ train_indices ∧ i ∉ test_indices.
Proof.
  intros Hg Hs Hp Hi. unfold split in Hs.
  destruct (fold_tables n_splits random_state y groups) as [t|] eqn:Ht; [|done].
  simpl in Hs. injection Hs as <-.
  apply list_elem_of_fmap in Hp as (k & Hp & Hk).
  assert (0 < n_splits)%nat as Hn.
  { apply elem_of_seq in Hk. lia. }
  pose proof (fold_pair_partition groups t k i) as Hpart.
  cbv zeta in Hpart. rewrite <-Hp in Hpart. destruct Hpart as [Hdisj Hcover].
  simpl in Hdisj, Hcover.
  assert (i ∉ test_indices) as Hnot.
  { unfold fold_pair in Hp. injection Hp as _ ->. rewrite elem_of_indices_in.
    intros (g' & Hg' & Hin). simplify_eq.
    by eapply Hg, fold_tables_groups_counted. }
  split; [|done].
  destruct (proj2 Hcover) as [?|?]; [eapply lookup_lt_Some; eassumption|done|done].
Qed.

Lemma uncounted_group_never_tested_witness :
  (9 ∉ take (length [0; 1]%nat) [7; 7; 9])
  ∧ split 2 1111 [(); (); ()] [0; 1]%nat [7; 7; 9]
    = Some [([2]%nat, [0; 1]%nat); ([0; 1; 2]%nat, [])]
  ∧ ([2]%nat, [0; 1]%nat) ∈ [([2]%nat, [0; 1]%nat); ([0; 1; 2]%nat, [])]
  ∧ [7; 7; 9] !! 2%nat = Some 9
  ∧ 2%nat ∈ [2]%nat ∧ 2%nat ∉ [0; 1]%nat.
Proof.
  assert (9 ∉ take (length [0; 1]%nat) [7; 7; 9]) as H1 by (simpl; set_solver).
  assert (split 2 1111 [(); (); ()] [0; 1]%nat [7; 7; 9]
          = Some [([2]%nat, [0; 1]%nat); ([0; 1; 2]%nat, [])]) as H2
    by (vm_compute; reflexivity).
  assert (([2]%nat, [0; 1]%nat) ∈ [([2]%nat, [0; 1]%nat); ([0; 1; 2]%nat, [])])
    as H3 by left.
  split; [exact H1|]. split; [exact H2|]. split; [exact H3|]. split; [done|].
  exact (uncounted_group_never_tested 2 1111 [(); (); ()] [0; 1]%nat [7; 7; 9] 9
           _ _ _ 2 H1 H2 H3 eq_refl).
Defined.

(** ** What the counting loop counts *)
Lemma dd_get_dd_update `{Countable K} {V} (dflt : V) (f : V → V)
    (m : gmap K V) (k k' : K) :
  dd_get dflt (dd_update dflt f m k) k'
  = if decide (k = k') then f (dd_get dflt m k) else dd_get dflt m k'.
Proof.
  unfold dd_update, dd_get at 1. rewrite lookup_insert. by case_decide.
Qed.

Section counts.
Variable labels_num : nat.

(** The number of (label, group) samples that satisfy [P]. *)
Definition samples_where (P : nat * Z → Prop) `{∀ p, Decision (P p)}
    (samples : list (nat * Z)) : Z :=
  Z.of_nat (length (filter P samples)).

Lemma samples_where_snoc (P : nat * Z → Prop) `{∀ p, Decision (P p)} l p :
  samples_where P (l ++ [p])
  = samples_where P l + (if decide (P p) then 1 else 0).
Proof.
  unfold samples_where. rewrite filter_app, length_app.
  case_decide.
  - rewrite filter_cons_True by done. simpl. lia.
  - rewrite filter_cons_False by done. simpl. lia.
Qed.

Lemma elem_of_od_update {V} (dflt : V) (f : V → V) (d : list (Z * V)) k g v :
  NoDup d.*1 →
  (g, v) ∈ od_update dflt f d k →
  (g ≠ k ∧ (g, v) ∈ d)
  ∨ (g = k ∧ ∃ v0, v = f v0 ∧ ((k, v0) ∈ d ∨ ((k ∉ d.*1) ∧ v0 = dflt))).
Proof.
  induction d as [|[k' v'] d IH]; simpl.
  - intros _ [= -> ->]%list_elem_of_singleton. right. split; [done|].
    exists dflt. split; [done|]. right. split; [|done]. apply not_elem_of_nil.
  - rewrite NoDup_cons. intros [Hk' Hd]. case_decide as Hk.
    + subst k'. intros [[= -> ->]|Hin]%elem_of_cons.
      * right. split; [done|]. exists v'. split; [done|]. left. left.
      * left. split; [|by right]. intros ->. apply Hk'.
        apply list_elem_of_fmap. by exists (k, v).
    + intros [[= -> ->]|Hin]%elem_of_cons.
      * left. split; [done|left].
      * destruct (IH Hd Hin) as [[Hne Hin']|(-> & v0 & -> & Hv0)].
        -- left. split; [done|by right].
        -- right. split; [done|]. exists v0. split; [done|].
           destruct Hv0 as [?|[Hnot ->]]; [left; by right|right].
           split; [|done]. rewrite not_elem_of_cons. done.
Qed.

Lemma vec_get_incr label label' v :
  (label' < length v)%nat →
  vec_get (vec_incr label' v) label
  = vec_get v label + (if decide (label = label') then 1 else 0).
Proof.
  intros Hl. unfold vec_get, vec_incr. case_decide as E.
  - subst. rewrite list_lookup_alter_eq.
    destruct (lookup_lt_is_Some_2 v label' Hl) as [z ->]. simpl. lia.
  - rewrite list_lookup_alter_ne by done. lia.
Qed.

Lemma vec_get_zeros label : vec_get (np_zeros labels_num) label = 0.
Proof.
  unfold vec_get, np_zeros. destruct (replicate _ _ !! _) eqn:E; [|done].
  by apply lookup_replicate in E as [-> _].
Qed.

(** The tables after the samples [l], every label of which is below
    [labels_num]. *)
Lemma count_loop_counts (l : list (nat * Z)) :
  Forall (λ p, (p.1 < labels_num)%nat) l →
  let r := foldl (count_step labels_num) ([], ∅) l in
  (∀ label, dd_get 0 r.2 label = samples_where (λ p, p.1 = label) l)
  ∧ (∀ g c label, (g, c) ∈ r.1 →
       vec_get c label = samples_where (λ p, p = (label, g)) l).
Proof.
  induction l as [|[label' g'] l IH] using rev_ind; intros Hl.
  { simpl. split; [done|]. by intros g c label ?%elem_of_nil. }
  apply Forall_app in Hl as [Hl Hp]. rewrite Forall_singleton in Hp. simpl in Hp.
  destruct (IH Hl) as [IH1 IH2]. clear IH.
  destruct (count_loop_invariant labels_num l ([], ∅)) as (Hnd & Hsz & Hkeys);
    [constructor|constructor|].
  rewrite foldl_snoc. simpl in *.
  destruct (foldl (count_step labels_num) ([], ∅) l) as [d yd]. simpl in *.
  split.
  - intros label. rewrite samples_where_snoc. simpl.
    rewrite dd_get_dd_update, <-IH1.
    case_decide; simplify_eq/=; lia.
  - intros g c label Hin. rewrite samples_where_snoc.
    apply (elem_of_od_update _ _ _ _ _ _ Hnd) in Hin
      as [[Hne Hin]|(-> & c0 & -> & Hc0)].
    + rewrite (IH2 g c label Hin). rewrite decide_False; [lia|congruence].
    + destruct Hc0 as [Hin|[Hnew ->]].
      * rewrite vec_get_incr.
        -- rewrite (IH2 g' c0 label Hin).
           do 2 case_decide; simplify_eq/=; congruence || lia.
        -- rewrite Forall_forall in Hsz. pose proof (Hsz _ Hin) as Hc.
           simpl in Hc. by rewrite Hc.
      * rewrite vec_get_incr by (by rewrite length_np_zeros).
        rewrite vec_get_zeros.
        assert (samples_where (λ p, p = (label, g')) l = 0) as ->.
        { unfold samples_where.
          destruct (filter _ l) as [|p k] eqn:Ef; [done|].
          assert (p ∈ filter (λ p, p = (label, g')) l) as Hp' by (rewrite Ef; left).
          apply list_elem_of_filter in Hp' as [-> Hin].
          destruct Hnew. apply Hkeys. right.
          apply list_elem_of_fmap. by exists (label, g'). }
        do 2 case_decide; simplify_eq/=; congruence || lia.
Qed.
End counts.

Lemma foldl_max_ge (a : nat) (l : list nat) :
  (a ≤ foldl Nat.max a l)%nat ∧ ∀ b, b ∈ l → (b ≤ foldl Nat.max a l)%nat.
Proof.
  revert a. induction l as [|x l IH]; intros a; simpl.
  { split; [done|]. by intros b ?%elem_of_nil. }
  destruct (IH (a `max` x)%nat) as [IH1 IH2]. split; [lia|].
  intros b [->|Hb]%elem_of_cons; [lia|auto].
Qed.

Lemma np_max_ge y m a : np_max y = Some m → a ∈ y → (a ≤ m)%nat.
Proof.
  destruct y as [|x y]; [done|]. intros [= <-].
  destruct (foldl_max_ge x y) as [H1 H2].
  intros [->|Ha]%elem_of_cons; auto.
Qed.

Lemma count_labels_tables (y : list nat) (groups : list Z) :
  y ≠ [] →
  ∃ labels_num y_counts_per_group y_distr,
    count_labels y groups = Some (labels_num, (y_counts_per_group, y_distr))
    ∧ (∀ label, label ∈ y → (label < labels_num)%nat)
    ∧ (∀ label,
         dd_get 0 y_distr label
         = samples_where (λ p, p.1 = label) (zip y groups))
    ∧ NoDup y_counts_per_group.*1
    ∧ (∀ g, g ∈ y_counts_per_group.*1 ↔ g ∈ take (length y) groups)
    ∧ (∀ g c, (g, c) ∈ y_counts_per_group →
         length c = labels_num
         ∧ ∀ label,
             vec_get c label
             = samples_where (λ p, p = (label, g)) (zip y groups)).
Proof.
  intros Hy. destruct (np_max_is_Some y Hy) as [m Hm].
  destruct (count_labels_Some y groups Hy) as (L & d & yd & E & Hnd & Hsz & Hkeys).
  exists L, d, yd. split; [done|].
  unfold count_labels in E. rewrite Hm in E. simpl in E. injection E as <- E.
  assert (∀ label, label ∈ y → (label < S m)%nat) as Hlt.
  { intros label Hl. pose proof (np_max_ge y m label Hm Hl). lia. }
  destruct (count_loop_counts (S m) (zip y groups)) as [H1 H2].
  { apply Forall_forall. intros [label g] Hin. simpl.
    apply Hlt. by eapply elem_of_zip_l. }
  rewrite E in H1, H2. simpl in *.
  split; [done|]. split; [done|]. split; [done|]. split.
  { intros g. by rewrite Hkeys, snd_zip_take. }
  intros g c Hin. split; [|intros label; by apply H2].
  rewrite Forall_forall in Hsz. apply (Hsz _ Hin).
Qed.

(** X3. On a non-empty [y] the counting loop returns its tables:
    [labels_num] exceeds every label, [y_distr[label]] is the number of
    samples with that label, the groups of [y_counts_per_group] are the
    groups of the samples, each once, and [y_counts_per_group[g][label]] is
    the number of samples of group [g] with that label (samples being the
    pairs of [zip(y, groups)]). *)
Theorem count_labels_counts (y : list nat) (groups : list Z) :
  y ≠ [] →
  ∃ labels_num y_counts_per_group y_distr,
    count_labels y groups = Some (labels_num, (y_counts_per_group, y_distr))
    ∧ (∀ label, label ∈ y → (label < labels_num)%nat)
    ∧ (∀ label,
         dd_get 0 y_distr label
         = samples_where (λ p, p.1 = label) (zip y groups))
    ∧ NoDup y_counts_per_group.*1
    ∧ (∀ g, g ∈ y_counts_per_group.*1 ↔ g ∈ take (length y) groups)
    ∧ (∀ g c, (g, c) ∈ y_counts_per_group →
         length c = labels_num
         ∧ ∀ label,
             vec_get c label
             = samples_where (λ p, p = (label, g)) (zip y groups)).
Proof. apply count_labels_tables. Qed.

Lemma count_labels_counts_witness :
  [0; 1; 1; 0]%nat ≠ []
  ∧ ∃ labels_num y_counts_per_group y_distr,
      count_labels [0; 1; 1; 0]%nat [7; 7; 8; 9]
      = Some (labels_num, (y_counts_per_group, y_distr))
      ∧ (∀ label, label ∈ [0; 1; 1; 0]%nat → (label < labels_num)%nat)
      ∧ (∀ label,
           dd_get 0 y_distr label
           = samples_where (λ p, p.1 = label)
                           (zip [0; 1; 1; 0]%nat [7; 7; 8; 9]))
      ∧ NoDup y_counts_per_group.*1
      ∧ (∀ g, g ∈ y_counts_per_group.*1
              ↔ g ∈ take (length [0; 1; 1; 0]%nat) [7; 7; 8; 9])
      ∧ (∀ g c, (g, c) ∈ y_counts_per_group →
           length c = labels_num
           ∧ ∀ label,
               vec_get c label
               = samples_where (λ p, p = (label, g))
                               (zip [0; 1; 1; 0]%nat [7; 7; 8; 9])).
Proof.
  split; [done|]. apply (count_labels_counts [0; 1; 1; 0]%nat [7; 7; 8; 9]).
  done.
Defined.

(** ** The fold tables count the samples of the folds *)

(** [y_counts_per_fold[k][label]], as a read of the [defaultdict] of zero
    vectors sees it. *)
Definition fold_count (t : tables) (k label : nat) : Z :=
  default 0 (y_counts_per_fold t !! Some k ≫= (.!! label)).

Lemma samples_where_cons (P : nat * Z → Prop) `{∀ p, Decision (P p)} p l :
  samples_where P (p :: l)
  = (if decide (P p) then 1 else 0) + samples_where P l.
Proof.
  unfold samples_where. case_decide.
  - rewrite filter_cons_True by done. simpl. lia.
  - rewrite filter_cons_False by done. simpl. lia.
Qed.

Lemma samples_where_add_group label (G : gset Z) g (samples : list (nat * Z)) :
  g ∉ G →
  samples_where (λ p, p.1 = label ∧ p.2 ∈ G ∪ {[g]}) samples
  = samples_where (λ p, p.1 = label ∧ p.2 ∈ G) samples
    + samples_where (λ p, p = (label, g)) samples.
Proof.
  intros Hg. induction samples as [|[l' g'] samples IH]; [done|].
  rewrite !samples_where_cons, IH. simpl.
  repeat case_decide; simplify_eq/=; try lia; exfalso; set_solver.
Qed.

Lemma samples_where_none (P : nat * Z → Prop) `{∀ p, Decision (P p)}
    (samples : list (nat * Z)) :
  (∀ p, ¬ P p) → samples_where P samples = 0.
Proof.
  intros HP. induction samples as [|p samples IH]; [done|].
  rewrite samples_where_cons, IH. by rewrite decide_False.
Qed.

Lemma vec_get_add v c label :
  length v = length c →
  vec_get (vec_add v c) label = vec_get v label + vec_get c label.
Proof.
  intros Hl. unfold vec_get, vec_add. rewrite lookup_zip_with.
  destruct (v !! label) as [a|] eqn:Ha; simpl.
  - destruct (lookup_lt_is_Some_2 c label) as [b ->]; [|done].
    apply lookup_lt_Some in Ha. lia.
  - apply lookup_ge_None in Ha. rewrite lookup_ge_None_2 by lia. done.
Qed.

Section fold_counts.
Context `{Float64} `{PyRandom}.
Variable n_splits : nat.
Variable random_state : Z.
Variable labels_num : nat.
Variable y_distr : gmap nat Z.
Variable samples : list (nat * Z).

Hypothesis some_fold : (0 < n_splits)%nat.

(** The state of the assignment counts the samples of the groups it has
    placed. *)
Definition counts_samples (st : list (list Z) * list (Z * nat)) : Prop :=
  length st.1 = n_splits
  ∧ Forall (λ v, length v = labels_num) st.1
  ∧ ∀ k label,
      vec_get (default [] (st.1 !! k)) label
      = samples_where
          (λ p, p.1 = label ∧ p.2 ∈ dd_get (∅ : gset Z) (fold_sets st.2) (Some k))
          samples.

Lemma counts_samples_step st g c :
  length c = labels_num →
  (∀ label, vec_get c label = samples_where (λ p, p = (label, g)) samples) →
  (∀ i, (g, i) ∉ st.2) →
  counts_samples st →
  counts_samples (spec_assign_group n_splits labels_num y_distr st (g, c)).
Proof.
  intros Hc Hcount Hfresh (Hlen & Hsz & Hinv). destruct st as [counts asg].
  simpl in *.
  set (i := first_min (spec_score labels_num y_distr counts c
                       <$> range n_splits)).
  assert (i < n_splits)%nat as Hi.
  { set (scores := spec_score labels_num y_distr counts c
                   <$> range n_splits).
    assert (length scores = n_splits) as Hl.
    { unfold scores, range. by rewrite length_fmap, length_seq. }
    pose proof (first_min_lt scores) as Hlt. rewrite Hl in Hlt. apply Hlt.
    intros E. rewrite E in Hl. simpl in Hl. lia. }
  destruct (lookup_lt_is_Some_2 counts i) as [v Hv]; [lia|].
  assert (length v = labels_num) as Hvl.
  { rewrite Forall_forall in Hsz. apply Hsz. by eapply list_elem_of_lookup_2. }
  split; [|split]; simpl.
  - unfold tentative. by rewrite length_alter.
  - unfold tentative. apply Forall_alter; [done|].
    intros w Hw. assert (length w = labels_num) as Hwl.
    { rewrite Forall_forall in Hsz. apply Hsz. by eapply list_elem_of_lookup_2. }
    rewrite length_vec_add; lia.
  - intros k label. unfold fold_sets. rewrite foldl_snoc. simpl.
    fold (fold_sets asg). rewrite dd_get_dd_update. unfold tentative.
    case_decide as Hk.
    + injection Hk as <-. rewrite list_lookup_alter_eq, Hv. simpl.
      rewrite vec_get_add by lia.
      rewrite samples_where_add_group.
      * f_equal; [|apply Hcount]. specialize (Hinv i label).
        by rewrite Hv in Hinv.
      * intros (j & _ & Hin)%elem_of_fold_sets. by apply (Hfresh j).
    + rewrite list_lookup_alter_ne by congruence. apply Hinv.
Qed.

Lemma counts_samples_loop l st :
  NoDup l.*1 →
  (∀ g c, (g, c) ∈ l →
     length c = labels_num
     ∧ ∀ label, vec_get c label = samples_where (λ p, p = (label, g)) samples) →
  (∀ g i, (g, i) ∈ st.2 → g ∉ l.*1) →
  counts_samples st →
  counts_samples (foldl (spec_assign_group n_splits labels_num y_distr) st l).
Proof.
  revert st. induction l as [|[g c] l IH]; intros st Hnd Hl Hfresh Hst; [done|].
  cbn [foldl]. rewrite fmap_cons in Hnd, Hfresh. cbn [fst] in Hnd, Hfresh.
  apply NoDup_cons in Hnd as [Hg Hnd].
  destruct (Hl g c) as [Hc Hcount]; [left|].
  apply IH; [done| | |].
  - intros g' c' Hin. apply Hl. by right.
  - destruct st as [counts asg]. simpl.
    intros g' i' [Hin|[= -> ->]%list_elem_of_singleton]%elem_of_app; [|done].
    intros Hin'. apply (Hfresh g' i' Hin). by right.
  - apply counts_samples_step; [done|done| |done].
    intros i Hin. apply (Hfresh g i Hin). left.
Qed.

Lemma counts_samples_init :
  counts_samples (replicate n_splits (np_zeros labels_num), []).
Proof.
  split; [|split]; simpl.
  - apply length_replicate.
  - apply Forall_replicate, length_np_zeros.
  - intros k label. rewrite samples_where_none.
    + destruct (replicate _ _ !! k) as [v|] eqn:E; simpl; [|done].
      apply lookup_replicate in E as [-> _]. apply vec_get_zeros.
    + intros p [_ Hp]. unfold fold_sets, dd_get in Hp. simpl in Hp.
      rewrite lookup_empty in Hp. set_solver.
Qed.
End fold_counts.

(** X4. After the greedy loop, [y_counts_per_fold[k][label]] is the
    number of samples with that label whose group was put into fold [k]:
    the probes, which add a group's counts to every fold in turn and take
    them out again, leave nothing behind, and every group is counted in
    the one fold it is assigned to. *)
Theorem fold_counts_are_sample_counts `{Float64} `{PyRandom}
    (n_splits : nat) (random_state : Z) (y : list nat) (groups : list Z)
    (k label : nat) :
  (k < n_splits)%nat → y ≠ [] →
  ∃ t,
    fold_tables n_splits random_state y groups = Some t
    ∧ fold_count t k label
      = samples_where
          (λ p, p.1 = label
                ∧ p.2 ∈ dd_get (∅ : gset Z) (groups_per_fold t) (Some k))
          (zip y groups).
Proof.
  intros Hk Hy. assert (0 < n_splits)%nat as Hn by lia.
  destruct (count_labels_tables y groups Hy)
    as (L & d & yd & E & _ & _ & Hnd & _ & Hd).
  unfold fold_tables. rewrite E. simpl. eexists. split; [done|].
  unfold assign_groups. rewrite sorted_by_negated_std.
  set (l := sort_desc (shuffle random_state d)).
  assert (l ≡ₚ d) as Hperm.
  { unfold l. by rewrite sort_desc_perm, shuffle_perm. }
  pose proof (assign_groups_refines n_splits L yd l (Tables ∅ ∅)
                (replicate n_splits (np_zeros L), []) Hn) as Href.
  destruct Href as (Hv & _ & Hg).
  { apply Forall_forall. intros [g c] Hin. simpl.
    apply (Hd g c). by rewrite <-Hperm. }
  { split; [|split]; simpl; [by rewrite counts_view_empty| |done].
    intros k'. unfold dd_get. rewrite lookup_empty. apply length_np_zeros. }
  destruct (counts_samples_loop n_splits L yd (zip y groups) Hn l
              (replicate n_splits (np_zeros L), [])) as (_ & _ & Hinv).
  { by rewrite Hperm. }
  { intros g c Hin. apply Hd. by rewrite <-Hperm. }
  { by intros g i ?%elem_of_nil. }
  { by apply counts_samples_init. }
  rewrite Hg, <-Hinv, Hv. unfold counts_view, range.
  rewrite list_lookup_fmap, lookup_seq_lt by done. simpl.
  unfold fold_count, dd_get, vec_get.
  destruct (y_counts_per_fold _ !! Some k) as [v|]; simpl; [done|].
  symmetry. apply vec_get_zeros.
Qed.

Lemma fold_counts_are_sample_counts_witness :
  (0 < 2)%nat ∧ [0; 1; 1; 0]%nat ≠ []
  ∧ ∃ t,
      fold_tables (H:=IEEE.ieee) (H0:=IEEE.reversing) 2 1111
        [0; 1; 1; 0]%nat [7; 7; 8; 9] = Some t
      ∧ fold_count t 0 1
        = samples_where
            (λ p, p.1 = 1%nat
                  ∧ p.2 ∈ dd_get (∅ : gset Z) (groups_per_fold t) (Some 0%nat))
            (zip [0; 1; 1; 0]%nat [7; 7; 8; 9]).
Proof.
  split; [lia|]. split; [done|].
  apply (fold_counts_are_sample_counts (H:=IEEE.ieee) (H0:=IEEE.reversing)
           2 1111 [0; 1; 1; 0]%nat [7; 7; 8; 9] 0 1); [lia|done].
Defined.

(** ** The splitter on the codes of [merge_y_and_others] *)
Lemma foldl_max_elem (a : nat) (l : list nat) :
  foldl Nat.max a l = a ∨ foldl Nat.max a l ∈ l.
Proof.
  revert a. induction l as [|x l IH]; intros a; simpl; [by left|].
  destruct (IH (a `max` x)%nat) as [->|Hin]; [|right; by right].
  destruct (Nat.max_spec a x) as [[_ ->]|[_ ->]]; [right; left|by left].
Qed.

Lemma np_max_elem y m : np_max y = Some m → m ∈ y.
Proof.
  destruct y as [|x y]; [done|]. intros [= <-].
  destruct (foldl_max_elem x y) as [->|Hin]; [left|by right].
Qed.

(** X5. The two functions fit: called on the codes that
    [merge_y_and_others] returns for non-empty columns of equal length,
    as both scripts do, the counting loop of the splitter allocates
    exactly one count per distinct (label, auxiliary) pair: [labels_num]
    is the number of distinct pairs. *)
Theorem splitter_counts_one_slot_per_pair (ys indices groups : list Z) :
  length ys = length indices → ys ≠ [] →
  ∃ codes labels_num y_counts_per_group y_distr,
    merge_y_and_others ys indices = Some codes
    ∧ count_labels codes groups
      = Some (labels_num, (y_counts_per_group, y_distr))
    ∧ labels_num = length (remove_dups (zip ys indices)).
Proof.
  intros Hlen Hys. unfold merge_y_and_others, torch_cat_columns.
  rewrite decide_True by done. simpl.
  set (rows := numpy_str_row <$> zip ys indices).
  destruct (fit_transform_spec rows) as (H1 & _ & H3).
  assert (fit_transform rows ≠ []) as Hne.
  { intros E. rewrite E in H1. unfold rows in H1.
    rewrite length_fmap, length_zip_with in H1. simpl in H1.
    destruct ys; [done|]. destruct indices; simpl in *; lia. }
  destruct (np_max_is_Some _ Hne) as [m Hm].
  exists (fit_transform rows), (S m). unfold count_labels. rewrite Hm. simpl.
  destruct (foldl _ _ _) as [d yd]. exists d, yd.
  split; [done|]. split; [done|].
  rewrite <-(@length_remove_dups_fmap _ _ _ _ numpy_str_row numpy_str_row_inj).
  fold rows.
  pose proof (np_max_elem _ _ Hm) as Hin. apply H3 in Hin.
  destruct (decide (S m = length (remove_dups rows))) as [|Hneq]; [done|].
  assert (S m ∈ fit_transform rows) as Hin' by (apply H3; lia).
  pose proof (np_max_ge _ _ _ Hm Hin'). lia.
Qed.

Lemma splitter_counts_one_slot_per_pair_witness :
  length example_ys = length example_indices ∧ example_ys ≠ []
  ∧ ∃ codes labels_num y_counts_per_group y_distr,
      merge_y_and_others example_ys example_indices = Some codes
      ∧ count_labels codes [7; 7; 8; 8; 9]
        = Some (labels_num, (y_counts_per_group, y_distr))
      ∧ labels_num = length (remove_dups (zip example_ys example_indices)).
Proof.
  split; [reflexivity|]. split; [done|].
  apply (splitter_counts_one_slot_per_pair example_ys example_indices
           [7; 7; 8; 8; 9]); [reflexivity|done].
Defined.

(** ** The codes of the label encoder are ranks *)
Lemma filter_none {A} (P : A → Prop) `{∀ x, Decision (P x)} (l : list A) :
  Forall (λ x, ¬ P x) l → filter P l = [].
Proof.
  induction 1 as [|x l Hx Hl IH]; [done|].
  by rewrite filter_cons_False.
Qed.

Section ranks.
Implicit Types (l classes : list string) (s : string).

(** Strictly below [s] in the order of [np.unique]. *)
Definition sorts_before (s c : string) : Prop := c ≠ s ∧ (c ≤ s)%string.

#[local] Instance sorts_before_dec s c : Decision (sorts_before s c).
Proof. unfold sorts_before. apply _. Defined.

Lemma StronglySorted_np_unique l : StronglySorted String.le (np_unique l).
Proof. apply StronglySorted_merge_sort; apply _. Qed.

Lemma index_of_rank classes s :
  StronglySorted String.le classes → s ∈ classes →
  index_of s classes = length (filter (sorts_before s) classes).
Proof.
  induction 1 as [|c classes Hs IH Hc]; [by intros ?%elem_of_nil|].
  rewrite elem_of_cons. intros Hin. simpl. case_decide as E.
  - subst c. rewrite filter_cons_False by (by intros [? _]).
    rewrite filter_none; [done|].
    rewrite Forall_forall in *. intros x Hx [Hne Hle].
    apply Hne. apply (anti_symm String.le); [done|by apply Hc].
  - destruct Hin as [?|Hin]; [done|].
    rewrite filter_cons_True.
    + simpl. by rewrite IH.
    + split; [done|]. rewrite Forall_forall in Hc. by apply Hc.
Qed.

Lemma fit_transform_rank l i s e :
  l !! i = Some s → fit_transform l !! i = Some e →
  e = length (filter (sorts_before s) (remove_dups l)).
Proof.
  intros Hs. unfold fit_transform. rewrite list_lookup_fmap, Hs. simpl.
  intros [= <-]. rewrite index_of_rank.
  - apply Permutation_length, filter_Permutation, np_unique_perm.
  - apply StronglySorted_np_unique.
  - apply elem_of_np_unique. by eapply list_elem_of_lookup_2.
Qed.
End ranks.

(** X6. The code of a sample is the number of distinct rows of the input
    whose printed form comes strictly before its own in string order (the
    order of [np.unique] on the strings, not that of the numbers). *)
Theorem merge_y_and_others_code_is_rank (ys indices : list Z) enc i a b e :
  merge_y_and_others ys indices = Some enc →
  ys !! i = Some a → indices !! i = Some b → enc !! i = Some e →
  e = length (filter (sorts_before (numpy_str_row (a, b)))
                     (remove_dups (numpy_str_row <$> zip ys indices))).
Proof.
  unfold merge_y_and_others, torch_cat_columns.
  case_decide; [|done]. simpl. intros [= <-] Ha Hb He.
  eapply fit_transform_rank; [|done].
  rewrite list_lookup_fmap.
  by rewrite (proj2 (lookup_zip_with_Some pair ys indices i (a, b)))
    by (by exists a, b).
Qed.

Lemma merge_y_and_others_code_is_rank_witness :
  merge_y_and_others example_ys example_indices = Some [2; 3; 0; 1; 3]%nat
  ∧ example_ys !! 0%nat = Some 0 ∧ example_indices !! 0%nat = Some 0
  ∧ [2; 3; 0; 1; 3]%nat !! 0%nat = Some 2%nat
  ∧ 2%nat = length (filter (sorts_before (numpy_str_row (0, 0)))
                      (remove_dups (numpy_str_row
                                      <$> zip example_ys example_indices))).
Proof.
  assert (merge_y_and_others example_ys example_indices
          = Some [2; 3; 0; 1; 3]%nat) as E by (vm_compute; reflexivity).
  split; [exact E|]. split; [reflexivity|]. split; [reflexivity|].
  split; [reflexivity|].
  exact (merge_y_and_others_code_is_rank example_ys example_indices _ 0 0 0 2
           E eq_refl eq_refl eq_refl).
Defined.

(** ** More on the epoch loop *)
Lemma filter_length_all {A} (P : A → Prop) `{∀ x, Decision (P x)} (l : list A) :
  length (filter P l) = length l → Forall P l.
Proof.
  induction l as [|x l IH]; [constructor|].
  destruct (decide (P x)) as [Hx|Hx].
  - rewrite filter_cons_True by done. simpl. intros [= E]. constructor; auto.
  - rewrite filter_cons_False by done. simpl. intros E.
    pose proof (length_filter P l). lia.
Qed.

Section patience.
Context `{Float64}.
Variable EARLY_STOP_STEPS : nat.
Variable N_EPOCHS : nat.
Variable model_name_loss : string.
Variable val_loss : nat → f64.

Local Abbreviation E := EARLY_STOP_STEPS.
Local Abbreviation loop :=
  (epoch_loop_from EARLY_STOP_STEPS model_name_loss val_loss).

Lemma loop_trained_ge epochs s :
  (epochs_trained s ≤ epochs_trained (loop epochs s))%nat.
Proof.
  revert s. induction epochs as [|e epochs IH]; intros s; simpl; [lia|].
  case_match; simpl; [lia|].
  etrans; [|apply IH].
  destruct (record_epoch_fields E model_name_loss (val_loss e)
              (EpochLoop (best_metrics_fold_loss s) (best_metrics_fold_auc s)
                 (last_losses_val s) (outer s) (S (epochs_trained s))
                 (stopped_early s))) as (_ & -> & _).
  simpl. lia.
Qed.

(** No loss is above the sentinel. *)
Hypothesis below_sentinel : ∀ epoch, flt (of_int 1000) (val_loss epoch) = false.

Lemma sentinel_in_window k :
  (k < E)%nat → of_int 1000 ∈ window_after E val_loss k.
Proof.
  intros Hk. unfold window_after.
  rewrite drop_app_le by (rewrite length_replicate; lia).
  apply elem_of_app. left. rewrite drop_replicate.
  destruct (E - k)%nat as [|n] eqn:En; [lia|]. simpl. left.
Qed.

Lemma not_worse_with_sentinel k :
  (k < E)%nat →
  worse_than_window E (val_loss (S k)) (window_after E val_loss k) = false.
Proof.
  intros Hk. unfold worse_than_window. apply bool_decide_eq_false. intros Hlen.
  rewrite <-(length_window_after E val_loss k) in Hlen at 2.
  apply filter_length_all in Hlen. rewrite Forall_forall in Hlen.
  specialize (Hlen _ (sentinel_in_window k Hk)). simpl in Hlen.
  by rewrite below_sentinel in Hlen.
Qed.

Lemma loop_patient n k s :
  last_losses_val s = window_after E val_loss k →
  epochs_trained s = k →
  (Nat.min E (k + n) ≤ epochs_trained (loop (seq (S k) n) s))%nat.
Proof.
  revert k s. induction n as [|n IH]; intros k s Hw Ht; simpl; [lia|].
  destruct (decide (k < E)%nat) as [Hk|Hk].
  - rewrite Hw. rewrite not_worse_with_sentinel by done.
    set (s1 := EpochLoop _ _ _ _ _ _).
    destruct (record_epoch_fields E model_name_loss (val_loss (S k)) s1)
      as (Hw1 & Ht1 & _).
    etrans; [|apply (IH (S k))].
    + lia.
    + rewrite Hw1. simpl. apply window_after_S.
    + rewrite Ht1. simpl. by rewrite Ht.
  - case_match; simpl; [lia|].
    set (s1 := EpochLoop _ _ _ _ _ _).
    etrans; [|apply loop_trained_ge].
    destruct (record_epoch_fields E model_name_loss (val_loss (S k)) s1)
      as (_ & -> & _). simpl. lia.
Qed.
End patience.

(** X7. While no validation loss is above the sentinel 1000, early
    stopping cannot end the loop during the first [EARLY_STOP_STEPS]
    epochs: the window still holds a sentinel. *)
Theorem early_stopping_is_patient `{Float64}
    (EARLY_STOP_STEPS N_EPOCHS : nat) (model_name_loss : string)
    (val_loss : nat → f64) (o : outer_fold) :
  (∀ epoch, flt (of_int 1000) (val_loss epoch) = false) →
  (Nat.min EARLY_STOP_STEPS (N_EPOCHS - 1)
   ≤ epochs_trained
       (epoch_loop EARLY_STOP_STEPS N_EPOCHS model_name_loss val_loss o))%nat.
Proof.
  intros Hbelow. unfold epoch_loop.
  apply (loop_patient EARLY_STOP_STEPS model_name_loss val_loss Hbelow
           (N_EPOCHS - 1) 0 (epoch_loop_init EARLY_STOP_STEPS o)); [|done].
  simpl. unfold window_after. simpl. by rewrite app_nil_r.
Qed.

Lemma early_stopping_is_patient_witness :
  (∀ epoch, flt (of_int 1000) (falling_then_rising epoch) = false)
  ∧ (Nat.min 2 (100 - 1)
     ≤ epochs_trained
         (epoch_loop 2 100 "m" falling_then_rising outer_fold_init))%nat.
Proof.
  assert (∀ epoch, flt (of_int 1000) (falling_then_rising epoch) = false) as Hb.
  { intros [|[|[|[|[|epoch]]]]]; vm_compute; reflexivity. }
  split; [exact Hb|].
  apply (early_stopping_is_patient (H:=IEEE.ieee) 2 100 "m"
           falling_then_rising outer_fold_init Hb).
Defined.

(** X8. The epoch loop calls [classifier_step] at most [N_EPOCHS - 1]
    times, and exactly that often when it does not stop early. *)
Theorem epochs_trained_bound `{Float64}
    (EARLY_STOP_STEPS N_EPOCHS : nat) (model_name_loss : string)
    (val_loss : nat → f64) (o : outer_fold) :
  (epochs_trained
     (epoch_loop EARLY_STOP_STEPS N_EPOCHS model_name_loss val_loss o)
   ≤ N_EPOCHS - 1)%nat
  ∧ (stopped_early
       (epoch_loop EARLY_STOP_STEPS N_EPOCHS model_name_loss val_loss o)
     = true
     ∨ epochs_trained
         (epoch_loop EARLY_STOP_STEPS N_EPOCHS model_name_loss val_loss o)
       = (N_EPOCHS - 1)%nat).
Proof.
  split.
  - unfold epoch_loop. etrans; [apply loop_trained_le|].
    simpl. by rewrite length_seq.
  - destruct (stopped_early _) eqn:Hs; [by left|right].
    by apply epoch_loop_not_stopped.
Qed.

(** X9. With [EARLY_STOP_STEPS = 0] the window is empty and every loss
    counts as worse than all of it: the loop stops after its first epoch,
    saves nothing and records nothing. *)
Theorem no_patience_stops_at_once `{Float64}
    (N_EPOCHS : nat) (model_name_loss : string)
    (val_loss : nat → f64) (o : outer_fold) :
  (2 ≤ N_EPOCHS)%nat →
  epochs_trained (epoch_loop 0 N_EPOCHS model_name_loss val_loss o) = 1%nat
  ∧ stopped_early (epoch_loop 0 N_EPOCHS model_name_loss val_loss o) = true
  ∧ outer (epoch_loop 0 N_EPOCHS model_name_loss val_loss o) = o.
Proof.
  intros HN. unfold epoch_loop.
  destruct (N_EPOCHS - 1)%nat as [|n] eqn:En; [lia|]. done.
Qed.

Lemma no_patience_stops_at_once_witness :
  (2 ≤ 100)%nat
  ∧ epochs_trained (epoch_loop 0 100 "m" falling_then_rising outer_fold_init)
    = 1%nat
  ∧ stopped_early (epoch_loop 0 100 "m" falling_then_rising outer_fold_init)
    = true
  ∧ outer (epoch_loop 0 100 "m" falling_then_rising outer_fold_init)
    = outer_fold_init.
Proof.
  split; [lia|].
  apply (no_patience_stops_at_once (H:=IEEE.ieee) 100 "m" falling_then_rising
           outer_fold_init).
  lia.
Defined.

(** ** What the grid loop ends with *)
Section selection.
Context `{Float64}.
Variable EARLY_STOP_STEPS : nat.
Variable N_EPOCHS : nat.

Local Abbreviation saves := (loss_saves EARLY_STOP_STEPS N_EPOCHS).
Local Abbreviation sentinel := (of_int 1000).

(** [a] is [b] or strictly below it. *)
Definition at_most (a b : f64) : Prop := a = b ∨ flt a b = true.

Lemma at_most_not_below a b u : at_most a b → flt u b = false → flt u a = false.
Proof.
  intros [->|Hab] Hub; [done|].
  destruct (flt u a) eqn:Hua; [|done].
  by rewrite (flt_trans u a b) in Hub.
Qed.

Lemma at_most_trans a b c : at_most a b → at_most b c → at_most a c.
Proof.
  intros [->|Hab] [->|Hbc]; [by left|by right|by right|].
  right. by eapply flt_trans.
Qed.

Lemma best_of_at_most b nm l : at_most (best_of lower (b, nm) l).1 b.
Proof.
  unfold best_of. revert b nm. induction l as [|nv l IH]; intros b nm; simpl.
  { by left. }
  unfold lower at 2. destruct (flt nv.2 b) eqn:Hv; simpl.
  - eapply at_most_trans; [apply IH|]. by right.
  - apply IH.
Qed.

Lemma improvements_head better b l nv rest :
  improvements better b l = nv :: rest → better nv.2 b = true.
Proof.
  induction l as [|x l IH]; simpl; [done|].
  destruct (better x.2 b) eqn:Hx; [|done]. by intros [= <- _].
Qed.

Lemma improvements_nil better b l :
  improvements better b l = [] ↔ Forall (λ nv, better nv.2 b = false) l.
Proof.
  induction l as [|x l IH]; simpl; [done|].
  rewrite Forall_cons. destruct (better x.2 b); [|naive_solver].
  split; [done|]. by intros [? _].
Qed.

Lemma best_of_name_stays better b p l :
  is_Some (best_of better (b, Some p) l).2.
Proof.
  unfold best_of. revert b p. induction l as [|nv l IH]; intros b p; simpl.
  { by eexists. }
  destruct (better nv.2 b); apply IH.
Qed.

Lemma best_of_no_name better b l :
  (best_of better (b, None) l).2 = None ↔ Forall (λ nv, better nv.2 b = false) l.
Proof.
  unfold best_of. induction l as [|nv l IH]; simpl; [done|].
  rewrite Forall_cons. destruct (better nv.2 b) eqn:Hv; simpl.
  - split; [|by intros [? _]]. intros Hn.
    destruct (best_of_name_stays better nv.2 nv.1 l) as [p Hp].
    unfold best_of in Hp. congruence.
  - rewrite IH. naive_solver.
Qed.

Lemma loss_saves_below_sentinel grid :
  Forall (λ nv, flt nv.2 sentinel = false) (grid ≫= saves) ↔ grid ≫= saves = [].
Proof.
  split; [|by intros ->].
  induction grid as [|c grid IH]; [done|]. rewrite bind_cons.
  intros [Hc Hg]%Forall_app. rewrite (IH Hg), app_nil_r.
  destruct c as [name val_loss|]; simpl in *; [|done].
  destruct (improvements _ _ _) as [|nv rest] eqn:E; [done|].
  apply improvements_head in E. apply Forall_cons in Hc as [Hnv _].
  unfold lower in E. congruence.
Qed.

Lemma elem_of_evaluated_saves (name : string) val_loss :
  improvements lower sentinel
    ((λ v, (name, v)) <$> evaluated EARLY_STOP_STEPS N_EPOCHS val_loss) = []
  ↔ ∀ v, v ∈ evaluated EARLY_STOP_STEPS N_EPOCHS val_loss →
         flt v sentinel = false.
Proof.
  rewrite improvements_nil, Forall_fmap, Forall_forall. done.
Qed.
End selection.

(** X10. After the grid, no best model name for [loss] is recorded (so that
    the [torch.load] of line 406 gets [None]) exactly when no checkpoint was
    saved, which is exactly when no evaluated validation loss of any
    combination is below 1000. *)
Theorem no_best_model_iff_no_loss_below_sentinel `{Float64}
    (EARLY_STOP_STEPS N_EPOCHS : nat) (grid : list candidate) :
  (best_model_name_outer_fold_loss (run_grid EARLY_STOP_STEPS N_EPOCHS grid)
   = None
   ↔ saved_loss (run_grid EARLY_STOP_STEPS N_EPOCHS grid) = [])
  ∧ (saved_loss (run_grid EARLY_STOP_STEPS N_EPOCHS grid) = []
     ↔ ∀ name val_loss v,
         EpochTrained name val_loss ∈ grid →
         v ∈ evaluated EARLY_STOP_STEPS N_EPOCHS val_loss →
         flt v (of_int 1000) = false).
Proof.
  destruct (run_grid_from EARLY_STOP_STEPS N_EPOCHS grid outer_fold_init)
    as (Hs & Hb & _). simpl in Hs, Hb.
  unfold run_grid. rewrite Hs. split.
  - pose proof (f_equal snd Hb) as Hn. simpl in Hn. rewrite Hn.
    rewrite best_of_no_name. apply loss_saves_below_sentinel.
  - clear. induction grid as [|c grid IH].
    { split; [|done]. by intros _ name val_loss v ?%elem_of_nil. }
    rewrite bind_cons. split.
    + intros [Hc Hg]%app_eq_nil name val_loss v [<-|Hin]%elem_of_cons Hv.
      * simpl in Hc. by eapply elem_of_evaluated_saves.
      * by eapply (proj1 IH).
    + intros Hall. apply app_nil. split.
      * destruct c as [name val_loss|]; [|done]. simpl.
        apply elem_of_evaluated_saves. intros v Hv.
        eapply Hall; [left|done].
      * apply IH. intros name val_loss v Hin. apply (Hall name). by right.
Qed.

Lemma no_best_model_example :
  best_model_name_outer_fold_loss
    (run_grid 30 100 [EpochTrained "m" (λ _, 1500%float)]) = None.
Proof. vm_compute. reflexivity. Qed.

(** ** Combinations of a grid

    What the grid loops of both scripts do with the validation losses
    that reach the checkpoint test: each combination has a checkpoint
    path and its losses in order, and restarts its own best at 1000. *)
Definition combination_saves `{Float64} (c : string * list f64)
    : list (string * f64) :=
  improvements lower (of_int 1000) ((λ v, (c.1, v)) <$> c.2).

(** The combinations of the grid of [main_loop]. *)
Definition loss_combinations `{Float64} (EARLY_STOP_STEPS N_EPOCHS : nat)
    (grid : list candidate) : list (string * list f64) :=
  grid ≫= λ c, match c with
               | EpochTrained name val_loss =>
                   [(name, evaluated EARLY_STOP_STEPS N_EPOCHS val_loss)]
               | BoostedTrees _ _ => []
               end.

Lemma best_of_cons `{Float64} better init nv l :
  best_of better init (nv :: l)
  = best_of better (if better nv.2 init.1 then (nv.2, Some nv.1) else init) l.
Proof. done. Qed.

Lemma best_of_app `{Float64} better init l1 l2 :
  best_of better init (l1 ++ l2) = best_of better (best_of better init l1) l2.
Proof. apply foldl_app. Qed.

Section combinations.
Context `{Float64}.

Lemma loss_saves_combinations EARLY_STOP_STEPS N_EPOCHS (grid : list candidate) :
  grid ≫= loss_saves EARLY_STOP_STEPS N_EPOCHS
  = loss_combinations EARLY_STOP_STEPS N_EPOCHS grid ≫= combination_saves.
Proof.
  unfold loss_combinations. induction grid as [|c grid IH]; [done|].
  rewrite !bind_cons, bind_app, IH. f_equal.
  destruct c; simpl; [by rewrite app_nil_r|done].
Qed.

Lemma elem_of_loss_combinations EARLY_STOP_STEPS N_EPOCHS
    (grid : list candidate) name vs :
  (name, vs) ∈ loss_combinations EARLY_STOP_STEPS N_EPOCHS grid
  ↔ ∃ val_loss, EpochTrained name val_loss ∈ grid
                ∧ vs = evaluated EARLY_STOP_STEPS N_EPOCHS val_loss.
Proof.
  unfold loss_combinations. rewrite list_elem_of_bind. split.
  - intros ([n vl|n auc] & Hin & Hc).
    + apply list_elem_of_singleton in Hin as [= -> ->]. by exists vl.
    + by apply elem_of_nil in Hin.
  - intros (vl & Hc & ->). exists (EpochTrained name vl).
    split; [left|done].
Qed.

(** The values that occur are comparable: none of them is a NaN, which
    is below nothing and above nothing. *)
Variable ok : f64 → Prop.
Hypothesis ok_weak_order :
  ∀ a b c, ok a → ok b → ok c →
    flt a b = false → flt b c = false → flt a c = false.

Lemma one_combination_least (l : list (string * f64)) f nm m :
  Forall (λ nv, ok nv.2) l → ok f → ok m → flt m f = false →
  let r := best_of lower (f, nm) (improvements lower m l) in
  (∀ nv, nv ∈ l → flt nv.2 r.1 = false)
  ∧ ok r.1 ∧ at_most r.1 f
  ∧ (r.1 = f ∨ ∃ nv, nv ∈ l ∧ r.1 = nv.2).
Proof.
  intros Hl. revert f nm m. induction Hl as [|nv l Hv Hl IH]; intros f nm m Hf Hm Hmf.
  { simpl. split; [by intros nv ?%elem_of_nil|]. split; [done|].
    split; by left. }
  cbv zeta in IH |- *. cbn [improvements].
  change (lower nv.2 m) with (flt nv.2 m). destruct (flt nv.2 m) eqn:Hvm.
  - rewrite best_of_cons. cbn [fst]. change (lower nv.2 f) with (flt nv.2 f).
    destruct (flt nv.2 f) eqn:Hvf.
    + destruct (IH nv.2 (Some nv.1) nv.2) as (IH1 & IH2 & IH3 & IH4);
        [done|done|apply flt_irrefl|].
      split; [|split; [done|split]].
      * intros x [->|Hx]%elem_of_cons; [|by apply IH1].
        eapply at_most_not_below; [exact IH3|apply flt_irrefl].
      * eapply at_most_trans; [exact IH3|by right].
      * right. destruct IH4 as [->|(x & Hx & ->)].
        -- exists nv. split; [left|done].
        -- exists x. split; [by right|done].
    + destruct (IH f nm nv.2) as (IH1 & IH2 & IH3 & IH4); [done|done|done|].
      split; [|split; [done|split; [done|]]].
      * intros x [->|Hx]%elem_of_cons; [|by apply IH1].
        by eapply at_most_not_below.
      * destruct IH4 as [->|(x & Hx & ->)]; [by left|right].
        exists x. split; [by right|done].
  - destruct (IH f nm m) as (IH1 & IH2 & IH3 & IH4); [done|done|done|].
    split; [|split; [done|split; [done|]]].
    + intros x [->|Hx]%elem_of_cons; [|by apply IH1].
      eapply at_most_not_below; [exact IH3|].
      by apply (ok_weak_order nv.2 m f).
    + destruct IH4 as [->|(x & Hx & ->)]; [by left|right].
      exists x. split; [by right|done].
Qed.

Lemma combinations_least (combos : list (string * list f64)) f nm :
  (∀ name vs v, (name, vs) ∈ combos → v ∈ vs → ok v) →
  ok (of_int 1000) → ok f → flt (of_int 1000) f = false →
  (∀ name vs v,
     (name, vs) ∈ combos → v ∈ vs →
     flt v (best_of lower (f, nm) (combos ≫= combination_saves)).1 = false)
  ∧ ok (best_of lower (f, nm) (combos ≫= combination_saves)).1
  ∧ at_most (best_of lower (f, nm) (combos ≫= combination_saves)).1 f
  ∧ ((best_of lower (f, nm) (combos ≫= combination_saves)).1 = f
     ∨ ∃ name vs,
         (name, vs) ∈ combos
         ∧ (best_of lower (f, nm) (combos ≫= combination_saves)).1 ∈ vs).
Proof.
  intros Hgrid Hs. revert f nm Hgrid.
  induction combos as [|[name vs] combos IH]; intros f nm Hgrid Hf Hsf.
  { simpl. split; [by intros ??? ?%elem_of_nil|]. split; [done|].
    split; by left. }
  rewrite bind_cons, best_of_app. unfold combination_saves at 1 3 5 7 9.
  cbn [fst snd].
  set (l := (λ v, (name, v)) <$> vs).
  pose proof (one_combination_least l f nm (of_int 1000)) as Hone.
  cbv zeta in Hone. destruct Hone as (A1 & A2 & A3 & A4); [|done|done|done|].
  { apply Forall_forall. intros nv (v & -> & Hv)%list_elem_of_fmap. simpl.
    apply (Hgrid name vs); [left|done]. }
  destruct (best_of lower (f, nm) (improvements lower (of_int 1000) l))
    as [f1 nm1] eqn:E1. simpl in A1, A2, A3, A4.
  destruct (IH f1 nm1) as (B1 & B2 & B3 & B4);
    [by intros n ws w Hin; apply (Hgrid n ws); right|done
    |by eapply at_most_not_below|].
  split; [|split; [done|split]].
  - intros n ws v [[= -> ->]|Hin]%elem_of_cons Hv.
    + eapply at_most_not_below; [exact B3|].
      apply (A1 (name, v)). apply list_elem_of_fmap. by exists v.
    + by eapply B1.
  - by eapply at_most_trans.
  - destruct B4 as [->|(n & ws & Hin & Hr)].
    + destruct A4 as [->|(nv & Hnv & ->)]; [by left|right].
      apply list_elem_of_fmap in Hnv as (v & -> & Hv).
      exists name, vs. split; [left|done].
    + right. exists n, ws. split; [by right|done].
Qed.
End combinations.

Lemma evaluated_from_values `{Float64} EARLY_STOP_STEPS val_loss window epochs v :
  v ∈ evaluated_from EARLY_STOP_STEPS val_loss window epochs →
  ∃ epoch, v = val_loss epoch.
Proof.
  revert window. induction epochs as [|e epochs IH]; intros window; simpl.
  { by intros ?%elem_of_nil. }
  case_match; [by intros ?%elem_of_nil|].
  intros [->|Hv]%elem_of_cons; [by exists e|by eapply IH].
Qed.

(** X11. When the validation losses are comparable values (no NaN), the
    best loss the grid loop ends with is the least of the evaluated losses
    of all combinations and the sentinel 1000: none of them is strictly
    below it, and it is one of them. The two-level comparison of lines
    394-399 loses nothing. *)
Theorem best_loss_is_least `{Float64} (EARLY_STOP_STEPS N_EPOCHS : nat)
    (grid : list candidate) (ok : f64 → Prop) :
  (∀ a b c, ok a → ok b → ok c →
     flt a b = false → flt b c = false → flt a c = false) →
  ok (of_int 1000) →
  (∀ name val_loss epoch,
     EpochTrained name val_loss ∈ grid → ok (val_loss epoch)) →
  (∀ name val_loss v,
     EpochTrained name val_loss ∈ grid →
     v ∈ evaluated EARLY_STOP_STEPS N_EPOCHS val_loss →
     flt v (best_outer_metric_loss (run_grid EARLY_STOP_STEPS N_EPOCHS grid))
     = false)
  ∧ flt (of_int 1000)
        (best_outer_metric_loss (run_grid EARLY_STOP_STEPS N_EPOCHS grid))
    = false
  ∧ (best_outer_metric_loss (run_grid EARLY_STOP_STEPS N_EPOCHS grid)
     = of_int 1000
     ∨ ∃ name val_loss,
         EpochTrained name val_loss ∈ grid
         ∧ best_outer_metric_loss (run_grid EARLY_STOP_STEPS N_EPOCHS grid)
           ∈ evaluated EARLY_STOP_STEPS N_EPOCHS val_loss).
Proof.
  intros Hweak Hs Hgrid.
  destruct (run_grid_from EARLY_STOP_STEPS N_EPOCHS grid outer_fold_init)
    as (_ & Hb & _). simpl in Hb.
  pose proof (f_equal fst Hb) as Hbest. simpl in Hbest. unfold run_grid.
  rewrite Hbest, loss_saves_combinations.
  destruct (combinations_least ok Hweak
              (loss_combinations EARLY_STOP_STEPS N_EPOCHS grid)
              (of_int 1000) None)
    as (G1 & _ & G3 & G4); [|done|done|apply flt_irrefl|].
  { intros name vs v (vl & Hin & ->)%elem_of_loss_combinations Hv.
    apply evaluated_from_values in Hv as [epoch ->]. by apply (Hgrid name). }
  split; [|split].
  - intros name vl v Hin Hv.
    apply (G1 name (evaluated EARLY_STOP_STEPS N_EPOCHS vl) v); [|done].
    apply elem_of_loss_combinations. by exists vl.
  - eapply at_most_not_below; [exact G3|apply flt_irrefl].
  - destruct G4 as [G4|(name & vs & Hin & Hb')]; [by left|right].
    apply elem_of_loss_combinations in Hin as (vl & Hin & ->).
    by exists name, vl.
Qed.

Definition half_or_sentinel (x : float) : Prop :=
  x = of_int (Float64:=IEEE.ieee) 1000 ∨ x = 0.5%float.

Definition constant_half_grid : list (@candidate IEEE.ieee) :=
  [EpochTrained "a" (λ _, 0.5%float)].

Lemma best_loss_is_least_witness :
  (∀ name val_loss v,
     EpochTrained name val_loss ∈ constant_half_grid →
     v ∈ evaluated 2 100 val_loss →
     flt v (best_outer_metric_loss (run_grid 2 100 constant_half_grid)) = false)
  ∧ flt (of_int 1000)
        (best_outer_metric_loss (run_grid 2 100 constant_half_grid)) = false
  ∧ (best_outer_metric_loss (run_grid 2 100 constant_half_grid) = of_int 1000
     ∨ ∃ name val_loss,
         EpochTrained name val_loss ∈ constant_half_grid
         ∧ best_outer_metric_loss (run_grid 2 100 constant_half_grid)
           ∈ evaluated 2 100 val_loss).
Proof.
  apply (best_loss_is_least (H:=IEEE.ieee) 2 100
           constant_half_grid half_or_sentinel).
  - intros a b c [->| ->] [->| ->] [->| ->]; vm_compute; congruence.
  - left; reflexivity.
  - intros name val_loss epoch [Heq|[]%elem_of_nil]%elem_of_cons.
    injection Heq as -> ->. right; reflexivity.
Defined.

(** ** The file behind the best model name *)

(** The paths [torch.save] can write to: [model_names['loss']] of every
    combination of the grid (line 394). *)
Definition loss_model_names `{Float64} (grid : list candidate) : list string :=
  grid ≫= λ c, match c with
               | EpochTrained name _ => [name]
               | BoostedTrees _ _ => []
               end.

(** What a path holds after the saves [saved]: [torch.save] replaces the
    file, so it is the last entry written under that path. *)
Definition file_at {A} (p : string) (saved : list (string * A)) : option (string * A) :=
  last (filter (λ nv, nv.1 = p) saved).

Section files.
Context `{Float64}.
Variable EARLY_STOP_STEPS : nat.
Variable N_EPOCHS : nat.

Lemma file_at_app {A} p (l1 l2 : list (string * A)) :
  file_at p (l1 ++ l2)
  = match file_at p l2 with Some x => Some x | None => file_at p l1 end.
Proof. unfold file_at. rewrite filter_app. apply last_app. Qed.

Lemma improvements_names better n (vs : list f64) m :
  Forall (λ nv, nv.1 = n) (improvements better m ((λ v, (n, v)) <$> vs)).
Proof.
  revert m. induction vs as [|v vs IH]; intros m; simpl; [constructor|].
  destruct (better v m); [constructor; [done|]|]; apply IH.
Qed.

Lemma file_at_all {A} n (l : list (string * A)) :
  Forall (λ nv, nv.1 = n) l → file_at n l = last l.
Proof.
  intros Hl. unfold file_at. f_equal.
  induction Hl as [|nv l Hn Hl IH]; [done|].
  rewrite filter_cons_True by done. by rewrite IH.
Qed.

Lemma file_at_other {A} n p (l : list (string * A)) :
  p ≠ n → Forall (λ nv, nv.1 = n) l → file_at p l = None.
Proof.
  intros Hp Hl. unfold file_at.
  induction Hl as [|nv l Hn Hl IH]; [done|].
  rewrite filter_cons_False by congruence. exact IH.
Qed.

(** One combination: if its path ends up recorded, the last save of the
    combination is the recorded best. *)
Lemma one_combination_file n (vs : list f64) f nm m :
  (nm = Some n → f = m) →
  (best_of lower (f, nm) (improvements lower m ((λ v, (n, v)) <$> vs))).2 = Some n
  ∧ match last (improvements lower m ((λ v, (n, v)) <$> vs)) with
    | Some x =>
        x = (n, (best_of lower (f, nm)
                   (improvements lower m ((λ v, (n, v)) <$> vs))).1)
    | None =>
        best_of lower (f, nm) (improvements lower m ((λ v, (n, v)) <$> vs))
        = (f, nm)
    end
  ∨ best_of lower (f, nm) (improvements lower m ((λ v, (n, v)) <$> vs)) = (f, nm)
    ∧ nm ≠ Some n.
Proof.
  revert f nm m. induction vs as [|v vs IH]; intros f nm m Hk.
  { simpl. destruct (decide (nm = Some n)) as [->|Hnm]; [by left|by right]. }
  cbn [fmap list_fmap improvements snd].
  change (lower v m) with (flt v m). destruct (flt v m) eqn:Hvm.
  - rewrite best_of_cons. cbn [fst snd]. change (lower v f) with (flt v f).
    rewrite last_cons.
    destruct (flt v f) eqn:Hvf.
    + destruct (IH v (Some n) v) as [[Hn Hlast]|[_ Hne]]; [done| |done].
      left. split; [done|].
      destruct (last (improvements lower v ((λ v0, (n, v0)) <$> vs)));
        [done|by rewrite Hlast].
    + assert (nm ≠ Some n) as Hnm.
      { intros Hn. rewrite (Hk Hn) in Hvf. congruence. }
      destruct (IH f nm v) as [[Hn Hlast]|[Hr Hne]]; [done| |by right].
      left. split; [done|].
      destruct (last (improvements lower v ((λ v0, (n, v0)) <$> vs)));
        [done|]. rewrite Hlast in Hn. done.
  - apply IH, Hk.
Qed.

Lemma combinations_file (combos : list (string * list f64)) f nm
    (saved : list (string * f64)) :
  NoDup combos.*1 →
  (∀ p, nm = Some p → p ∉ combos.*1) →
  (∀ p, nm = Some p → file_at p saved = Some (p, f)) →
  ∀ p,
    (best_of lower (f, nm) (combos ≫= combination_saves)).2 = Some p →
    file_at p (saved ++ (combos ≫= combination_saves))
    = Some (p, (best_of lower (f, nm) (combos ≫= combination_saves)).1).
Proof.
  revert f nm saved.
  induction combos as [|[n vs] combos IH]; intros f nm saved Hnd Hfresh Hfile p.
  { simpl. rewrite app_nil_r. apply Hfile. }
  rewrite bind_cons, best_of_app, app_assoc.
  unfold combination_saves at 1 3 5. cbn [fst snd].
  rewrite fmap_cons in Hnd, Hfresh. cbn [fst] in Hnd, Hfresh.
  apply NoDup_cons in Hnd as [Hn Hnd].
  pose proof (improvements_names lower n vs (of_int 1000)) as Hnames.
  assert (nm ≠ Some n) as Hnm.
  { intros ->. apply (Hfresh n); [done|left]. }
  destruct (one_combination_file n vs f nm (of_int 1000)) as [[Hr Hlast]|[Hr _]];
    [done| |].
  - destruct (best_of lower (f, nm)
                (improvements lower (of_int 1000) ((λ v, (n, v)) <$> vs)))
      as [f1 nm1] eqn:E1. simpl in Hr, Hlast. subst nm1.
    apply IH; [done| |].
    + by intros q [= <-].
    + intros q [= <-]. rewrite file_at_app, (file_at_all n) by done.
      destruct (last _) as [x|]; [by subst x|].
      by injection Hlast as _ ?.
  - rewrite Hr. apply IH; [done| |].
    + intros q Hq Hin. apply (Hfresh q Hq). by right.
    + intros q Hq. rewrite file_at_app.
      rewrite (file_at_other n q); [by apply Hfile| |done].
      intros ->. apply (Hfresh n Hq). left.
Qed.

Lemma loss_combinations_names (grid : list candidate) :
  (loss_combinations EARLY_STOP_STEPS N_EPOCHS grid).*1 = loss_model_names grid.
Proof.
  unfold loss_combinations, loss_model_names.
  induction grid as [|c grid IH]; [done|].
  rewrite !bind_cons, fmap_app, IH. by destruct c.
Qed.
End files.

(** X12. When the combinations of the grid have distinct model paths,
    the path recorded as the best model for loss holds, after the grid
    loop, the model of the recorded best loss: the last [torch.save] to
    that path is the one of the epoch that set [best_outer_metric_loss].
    This is the file that [torch.load] reads at line 406. *)
Theorem best_checkpoint_holds_best_loss `{Float64}
    (EARLY_STOP_STEPS N_EPOCHS : nat) (grid : list candidate) (p : string) :
  NoDup (loss_model_names grid) →
  best_model_name_outer_fold_loss (run_grid EARLY_STOP_STEPS N_EPOCHS grid)
  = Some p →
  file_at p (saved_loss (run_grid EARLY_STOP_STEPS N_EPOCHS grid))
  = Some (p, best_outer_metric_loss (run_grid EARLY_STOP_STEPS N_EPOCHS grid)).
Proof.
  intros Hnd.
  destruct (run_grid_from EARLY_STOP_STEPS N_EPOCHS grid outer_fold_init)
    as (Hs & Hb & _). simpl in Hs, Hb.
  unfold run_grid. rewrite Hs.
  pose proof (f_equal fst Hb) as Hb1. pose proof (f_equal snd Hb) as Hb2.
  simpl in Hb1, Hb2. rewrite Hb1, Hb2, loss_saves_combinations. intros Hp.
  apply (combinations_file
           (loss_combinations EARLY_STOP_STEPS N_EPOCHS grid)
           (of_int 1000) None []); [|done|done|done].
  by rewrite loss_combinations_names.
Qed.

Lemma best_checkpoint_holds_best_loss_witness :
  file_at "a" (saved_loss (run_grid 2 100 constant_half_grid))
  = Some ("a"%string, best_outer_metric_loss (run_grid 2 100 constant_half_grid)).
Proof.
  apply (best_checkpoint_holds_best_loss (H:=IEEE.ieee) 2 100
           constant_half_grid "a").
  - vm_compute. apply NoDup_singleton.
  - vm_compute. reflexivity.
Defined.

(** The paths have to be distinct: a later combination of the same path
    overwrites the file with a model that is not the best one. *)
Definition same_path_grid : list (@candidate IEEE.ieee) :=
  [EpochTrained "a" (λ _, 0.5%float); EpochTrained "a" (λ _, 0.75%float)].

Lemma same_path_overwrites_best :
  best_model_name_outer_fold_loss (run_grid 2 3 same_path_grid) = Some "a"%string
  ∧ best_outer_metric_loss (run_grid 2 3 same_path_grid) = 0.5%float
  ∧ file_at "a" (saved_loss (run_grid 2 3 same_path_grid))
    = Some ("a"%string, 0.75%float).
Proof. vm_compute. done. Qed.

(** ** The grid loop of the encoders *)

(** The combinations of the grid of the encoders: every epoch of
    [range(N_EPOCHS)] is evaluated. *)
Definition encoder_combinations `{Float64} (N_EPOCHS : nat)
    (grid : list (string * (nat → f64))) : list (string * list f64) :=
  (λ params, (params.1, params.2 <$> seq 0 N_EPOCHS)) <$> grid.

Section encoder.
Context `{Float64}.
Variable N_EPOCHS : nat.

Lemma encoder_epochs name val_loss epochs s :
  let s' := foldl (EncoderLoop.training_epoch name val_loss) s epochs in
  let saves :=
    improvements lower (EncoderLoop.best_metrics_fold_loss s)
      ((λ v, (name, v)) <$> (val_loss <$> epochs)) in
  EncoderLoop.saved (EncoderLoop.outer s')
  = EncoderLoop.saved (EncoderLoop.outer s) ++ saves
  ∧ (EncoderLoop.best_outer_metric_loss (EncoderLoop.outer s'),
     EncoderLoop.best_model_name_outer_fold_loss (EncoderLoop.outer s'))
    = best_of lower
        (EncoderLoop.best_outer_metric_loss (EncoderLoop.outer s),
         EncoderLoop.best_model_name_outer_fold_loss (EncoderLoop.outer s))
        saves
  ∧ EncoderLoop.losses_val s'
    = EncoderLoop.losses_val s ++ (val_loss <$> epochs).
Proof.
  cbv zeta. revert s. induction epochs as [|e epochs IH]; intros s.
  { simpl. by rewrite !app_nil_r. }
  cbn [foldl fmap list_fmap improvements snd].
  destruct (IH (EncoderLoop.training_epoch name val_loss s e))
    as (IH1 & IH2 & IH3).
  rewrite IH1, IH2, IH3. clear IH IH1 IH2 IH3.
  unfold EncoderLoop.training_epoch. change (lower ?a ?b) with (flt a b).
  destruct (flt (val_loss e) (EncoderLoop.best_metrics_fold_loss s)).
  - rewrite best_of_cons. cbn [fst snd]. change (lower ?a ?b) with (flt a b).
    destruct (flt (val_loss e)
                (EncoderLoop.best_outer_metric_loss (EncoderLoop.outer s)));
      simpl; by rewrite <-!app_assoc.
  - simpl. by rewrite <-!app_assoc.
Qed.

Lemma encoder_run_grid_from grid o :
  let o' := foldl (λ o params,
                     EncoderLoop.outer
                       (EncoderLoop.epoch_loop N_EPOCHS params.1 params.2 o))
                  o grid in
  EncoderLoop.saved o'
  = EncoderLoop.saved o
    ++ (encoder_combinations N_EPOCHS grid ≫= combination_saves)
  ∧ (EncoderLoop.best_outer_metric_loss o',
     EncoderLoop.best_model_name_outer_fold_loss o')
    = best_of lower
        (EncoderLoop.best_outer_metric_loss o,
         EncoderLoop.best_model_name_outer_fold_loss o)
        (encoder_combinations N_EPOCHS grid ≫= combination_saves).
Proof.
  cbv zeta. revert o. induction grid as [|[name val_loss] grid IH]; intros o.
  { simpl. by rewrite app_nil_r. }
  cbn [foldl fst snd]. destruct (IH (EncoderLoop.outer
    (EncoderLoop.epoch_loop N_EPOCHS name val_loss o))) as [IH1 IH2].
  rewrite IH1, IH2. clear IH IH1 IH2.
  unfold encoder_combinations. rewrite fmap_cons, bind_cons, best_of_app.
  cbn [fst snd]. unfold combination_saves at 1 3. cbn [fst snd].
  pose proof (encoder_epochs name val_loss (seq 0 N_EPOCHS)
                (EncoderLoop.EpochLoop (of_int 1000) [] o)) as (E1 & E2 & _).
  fold (EncoderLoop.epoch_loop N_EPOCHS name val_loss o) in E1, E2.
  cbn [EncoderLoop.outer EncoderLoop.best_metrics_fold_loss] in E1, E2.
  rewrite E1, E2. by rewrite <-app_assoc.
Qed.

Lemma elem_of_encoder_combinations grid name vs :
  (name, vs) ∈ encoder_combinations N_EPOCHS grid
  ↔ ∃ val_loss, (name, val_loss) ∈ grid ∧ vs = val_loss <$> seq 0 N_EPOCHS.
Proof.
  unfold encoder_combinations. rewrite list_elem_of_fmap. split.
  - intros ([n vl] & [= -> ->] & Hin). by exists vl.
  - intros (vl & Hin & ->). by exists (name, vl).
Qed.

Lemma elem_of_epochs (val_loss : nat → f64) v :
  v ∈ val_loss <$> seq 0 N_EPOCHS
  ↔ ∃ epoch, (epoch < N_EPOCHS)%nat ∧ v = val_loss epoch.
Proof.
  rewrite list_elem_of_fmap. split.
  - intros (e & -> & He%elem_of_seq). exists e. split; [lia|done].
  - intros (e & He & ->). exists e. split; [done|]. apply elem_of_seq. lia.
Qed.

Lemma combinations_no_name (combos : list (string * list f64)) :
  (best_of lower (of_int 1000, None) (combos ≫= combination_saves)).2 = None
  ↔ ∀ name vs v, (name, vs) ∈ combos → v ∈ vs → flt v (of_int 1000) = false.
Proof.
  rewrite best_of_no_name. split.
  - intros Hall name vs v Hin Hv.
    destruct (flt v (of_int 1000)) eqn:Hlt; [exfalso|done].
    destruct (combination_saves (name, vs)) as [|nv rest] eqn:E.
    + unfold combination_saves in E. apply improvements_nil in E.
      rewrite Forall_fmap, Forall_forall in E. specialize (E v Hv).
      simpl in E. unfold lower in E. congruence.
    + rewrite Forall_forall in Hall.
      assert (lower nv.2 (of_int 1000) = false) as Hf.
      { apply (Hall nv). apply list_elem_of_bind. exists (name, vs).
        split; [|done]. rewrite E. left. }
      unfold combination_saves in E. apply improvements_head in E.
      congruence.
  - intros Hall. apply Forall_forall.
    intros nv ([name vs] & Hnv & Hin)%list_elem_of_bind.
    assert (combination_saves (name, vs) = []) as E; [|by rewrite E in Hnv; apply elem_of_nil in Hnv].
    unfold combination_saves. rewrite improvements_nil, Forall_fmap.
    apply Forall_forall. intros v Hv. by apply (Hall name vs).
Qed.
End encoder.

(** X13. The grid loop of the encoders ends without a best model name,
    so that the [torch.load] of line 353 gets [None], exactly when no
    epoch of any combination has a validation loss below 1000; among
    others when [--num_epochs] is 0. All epochs of [range(N_EPOCHS)]
    count, the first and the last included. *)
Theorem encoder_without_best_model `{Float64} (N_EPOCHS : nat)
    (grid : list (string * (nat → f64))) :
  EncoderLoop.best_model_name_outer_fold_loss (EncoderLoop.run_grid N_EPOCHS grid)
  = None
  ↔ ∀ name val_loss epoch,
      (name, val_loss) ∈ grid → (epoch < N_EPOCHS)%nat →
      flt (val_loss epoch) (of_int 1000) = false.
Proof.
  destruct (encoder_run_grid_from N_EPOCHS grid EncoderLoop.outer_fold_init)
    as [_ Hb].
  pose proof (f_equal snd Hb) as Hn. cbn [snd] in Hn.
  unfold EncoderLoop.run_grid. rewrite Hn. cbn.
  rewrite combinations_no_name. split.
  - intros Hall name vl epoch Hin He.
    apply (Hall name (vl <$> seq 0 N_EPOCHS)).
    + apply elem_of_encoder_combinations. by exists vl.
    + apply elem_of_epochs. by exists epoch.
  - intros Hall name vs v (vl & Hin & ->)%elem_of_encoder_combinations
      (epoch & He & ->)%elem_of_epochs.
    by apply (Hall name).
Qed.

(** X14. When the validation losses are comparable values (no NaN), the
    best loss that the grid loop of the encoders ends with is the least
    of 1000 and the losses of all [N_EPOCHS] epochs of all
    combinations. *)
Theorem encoder_best_loss_is_least `{Float64} (N_EPOCHS : nat)
    (grid : list (string * (nat → f64))) (ok : f64 → Prop) :
  (∀ a b c, ok a → ok b → ok c →
     flt a b = false → flt b c = false → flt a c = false) →
  ok (of_int 1000) →
  (∀ name val_loss epoch, (name, val_loss) ∈ grid → ok (val_loss epoch)) →
  (∀ name val_loss epoch,
     (name, val_loss) ∈ grid → (epoch < N_EPOCHS)%nat →
     flt (val_loss epoch)
         (EncoderLoop.best_outer_metric_loss (EncoderLoop.run_grid N_EPOCHS grid))
     = false)
  ∧ flt (of_int 1000)
        (EncoderLoop.best_outer_metric_loss (EncoderLoop.run_grid N_EPOCHS grid))
    = false
  ∧ (EncoderLoop.best_outer_metric_loss (EncoderLoop.run_grid N_EPOCHS grid)
     = of_int 1000
     ∨ ∃ name val_loss epoch,
         (name, val_loss) ∈ grid ∧ (epoch < N_EPOCHS)%nat
         ∧ EncoderLoop.best_outer_metric_loss
             (EncoderLoop.run_grid N_EPOCHS grid)
           = val_loss epoch).
Proof.
  intros Hweak Hs Hgrid.
  destruct (encoder_run_grid_from N_EPOCHS grid EncoderLoop.outer_fold_init)
    as [_ Hb].
  pose proof (f_equal fst Hb) as Hbest. cbn [fst] in Hbest.
  unfold EncoderLoop.run_grid. rewrite Hbest. cbn.
  destruct (combinations_least ok Hweak (encoder_combinations N_EPOCHS grid)
              (of_int 1000) None)
    as (G1 & _ & G3 & G4); [|done|done|apply flt_irrefl|].
  { intros name vs v (vl & Hin & ->)%elem_of_encoder_combinations
      (epoch & He & ->)%elem_of_epochs.
    by apply (Hgrid name). }
  split; [|split].
  - intros name vl epoch Hin He.
    apply (G1 name (vl <$> seq 0 N_EPOCHS)).
    + apply elem_of_encoder_combinations. by exists vl.
    + apply elem_of_epochs. by exists epoch.
  - eapply at_most_not_below; [exact G3|apply flt_irrefl].
  - destruct G4 as [G4|(name & vs & Hin & Hb')]; [by left|right].
    apply elem_of_encoder_combinations in Hin as (vl & Hin & ->).
    apply elem_of_epochs in Hb' as (epoch & He & Hb').
    by exists name, vl, epoch.
Qed.

Definition constant_half_encoder_grid : list (string * (nat → float)) :=
  [("a"%string, λ _, 0.5%float)].

Lemma encoder_best_loss_is_least_witness :
  (∀ name val_loss epoch,
     (name, val_loss) ∈ constant_half_encoder_grid → (epoch < 3)%nat →
     flt (val_loss epoch)
         (EncoderLoop.best_outer_metric_loss
            (EncoderLoop.run_grid 3 constant_half_encoder_grid))
     = false)
  ∧ flt (of_int 1000)
        (EncoderLoop.best_outer_metric_loss
           (EncoderLoop.run_grid 3 constant_half_encoder_grid))
    = false
  ∧ (EncoderLoop.best_outer_metric_loss
       (EncoderLoop.run_grid 3 constant_half_encoder_grid)
     = of_int 1000
     ∨ ∃ name val_loss epoch,
         (name, val_loss) ∈ constant_half_encoder_grid ∧ (epoch < 3)%nat
         ∧ EncoderLoop.best_outer_metric_loss
             (EncoderLoop.run_grid 3 constant_half_encoder_grid)
           = val_loss epoch).
Proof.
  apply (encoder_best_loss_is_least (H:=IEEE.ieee) 3
           constant_half_encoder_grid half_or_sentinel).
  - intros a b c [->| ->] [->| ->] [->| ->]; vm_compute; congruence.
  - left; reflexivity.
  - intros name val_loss epoch [Heq|[]%elem_of_nil]%elem_of_cons.
    injection Heq as -> ->. right; reflexivity.
Defined.

(** X15. When the combinations of the grid of the encoders have distinct
    model paths, the path recorded as the best model holds the model of
    the recorded best loss, which is the model that line 353 loads and
    line 358 saves as the best encoder of the fold. *)
Theorem encoder_checkpoint_holds_best_loss `{Float64} (N_EPOCHS : nat)
    (grid : list (string * (nat → f64))) (p : string) :
  NoDup grid.*1 →
  EncoderLoop.best_model_name_outer_fold_loss (EncoderLoop.run_grid N_EPOCHS grid)
  = Some p →
  file_at p (EncoderLoop.saved (EncoderLoop.run_grid N_EPOCHS grid))
  = Some (p, EncoderLoop.best_outer_metric_loss
               (EncoderLoop.run_grid N_EPOCHS grid)).
Proof.
  intros Hnd.
  destruct (encoder_run_grid_from N_EPOCHS grid EncoderLoop.outer_fold_init)
    as [Hs Hb].
  pose proof (f_equal fst Hb) as Hb1. pose proof (f_equal snd Hb) as Hb2.
  cbn [fst snd] in Hb1, Hb2.
  unfold EncoderLoop.run_grid. rewrite Hs, Hb1, Hb2. cbn. intros Hp.
  apply (combinations_file (encoder_combinations N_EPOCHS grid)
           (of_int 1000) None []); [|done|done|done].
  unfold encoder_combinations. by rewrite <-list_fmap_compose.
Qed.

Lemma encoder_checkpoint_holds_best_loss_witness :
  file_at "a"
    (EncoderLoop.saved (EncoderLoop.run_grid 3 constant_half_encoder_grid))
  = Some ("a"%string,
          EncoderLoop.best_outer_metric_loss
            (EncoderLoop.run_grid 3 constant_half_encoder_grid)).
Proof.
  apply (encoder_checkpoint_holds_best_loss (H:=IEEE.ieee) 3
           constant_half_encoder_grid "a").
  - vm_compute. apply NoDup_singleton.
  - vm_compute. reflexivity.
Defined.

(** ** The outer loop *)

Lemma outer_loop_from {A} (SPLIT_TO_TEST : option Z) (pairs : list A)
    (count : Z) (ran : list (Z * A)) :
  (foldl (λ st fold,
            let outer_split_num := st.1 + 1 in
            if decide (Some outer_split_num ≠ SPLIT_TO_TEST)
            then (outer_split_num, st.2)
            else (outer_split_num, st.2 ++ [(outer_split_num, fold)]))
         (count, ran) pairs).2
  = ran ++ match SPLIT_TO_TEST with
           | Some k =>
               if decide (count + 1 ≤ k) then
                 match pairs !! Z.to_nat (k - count - 1) with
                 | Some fold => [(k, fold)]
                 | None => []
                 end
               else []
           | None => []
           end.
Proof.
  revert count ran. induction pairs as [|fold pairs IH]; intros count ran.
  { cbn [foldl snd].
    destruct SPLIT_TO_TEST; [case_decide|]; by rewrite ?lookup_nil, app_nil_r. }
  cbn [foldl]. cbv zeta. cbn [fst snd]. case_decide as Hk.
  - rewrite IH. f_equal. destruct SPLIT_TO_TEST as [k|]; [|done].
    assert (k ≠ count + 1) by congruence.
    repeat case_decide; try lia; [|done].
    replace (Z.to_nat (k - count - 1)) with (S (Z.to_nat (k - (count + 1) - 1)))
      by lia.
    done.
  - subst SPLIT_TO_TEST.
    rewrite IH, <-app_assoc. f_equal.
    rewrite decide_False, decide_True by lia.
    by replace (count + 1 - count - 1) with 0 by lia.
Qed.

(** X16. The body of the outer loop runs on one pair at most: the pair
    whose position among the yielded pairs, counted from 1, is
    [--fold_num]. Without [--fold_num], or with a number below 1 or above
    the number of pairs, the loop ends without having run its body. *)
Theorem outer_loop_runs_selected_fold {A} (SPLIT_TO_TEST : option Z)
    (skf_generator : list A) :
  outer_loop SPLIT_TO_TEST skf_generator
  = match SPLIT_TO_TEST with
    | Some k =>
        if decide (1 ≤ k) then
          match skf_generator !! Z.to_nat (k - 1) with
          | Some fold => [(k, fold)]
          | None => []
          end
        else []
    | None => []
    end.
Proof.
  unfold outer_loop. rewrite outer_loop_from. simpl.
  destruct SPLIT_TO_TEST as [k|]; [|done].
  by replace (k - 0 - 1) with (k - 1) by lia.
Qed.

(** ** The GPU reservation file *)

Import GpuLock.

Lemma content_after_cons c cs info_file :
  content_after (c :: cs) info_file = content_after cs (call c info_file).2.
Proof. done. Qed.

Lemma content_after_server cs : content_after cs "server" = "server"%string.
Proof. induction cs as [|[] cs IH]; [done|exact IH|exact IH]. Qed.

Lemma call_not_server c info_file :
  info_file ≠ "server"%string → (call c info_file).2 ≠ "server"%string.
Proof.
  intros Hs. destruct c; simpl.
  - unfold get_freer_gpu. rewrite decide_False by done.
    by case_decide.
  - unfold free_gpu_info. by rewrite decide_False by done.
Qed.

Lemma content_after_not_server cs info_file :
  info_file ≠ "server"%string → content_after cs info_file ≠ "server"%string.
Proof.
  revert info_file. induction cs as [|c cs IH]; intros info_file Hs; [done|].
  rewrite content_after_cons. by apply IH, call_not_server.
Qed.

Lemma gpus_given_reserved cs :
  FreeGpuInfo ∉ cs →
  Forall (λ gpu, gpu = 1) (gpus_given cs "0") ∧ content_after cs "0" = "0"%string.
Proof.
  induction cs as [|[] cs IH]; intros Hfree.
  - by split; [constructor|].
  - destruct IH as [IH1 IH2]; [by intros ?; apply Hfree; right|].
    split; [by constructor|exact IH2].
  - destruct Hfree. left.
Qed.

Lemma get_freer_gpu_reserves info_file :
  info_file ≠ "server"%string → (get_freer_gpu info_file).2 = "0"%string.
Proof.
  intros Hs. unfold get_freer_gpu. rewrite decide_False by done.
  by case_decide.
Qed.

(** X17. On a machine that is not in server mode, once one process has
    asked for a GPU, every request that follows gets GPU 1, whatever
    number of processes ask, until some process calls [free_gpu_info];
    and the first request after a [free_gpu_info] gets GPU 0, whatever
    happened before it and whoever made the call. *)
Theorem gpu0_given_once_until_freed (info_file : string)
    (before cs : list gpu_call) :
  info_file ≠ "server"%string →
  FreeGpuInfo ∉ cs →
  Forall (λ gpu, gpu = 1)
         (gpus_given cs (get_freer_gpu (content_after before info_file)).2)
  ∧ (get_freer_gpu (free_gpu_info (content_after before info_file))).1 = 0.
Proof.
  intros Hs Hfree.
  pose proof (content_after_not_server before info_file Hs) as Hs'.
  split.
  - rewrite get_freer_gpu_reserves by done. by apply gpus_given_reserved.
  - unfold free_gpu_info. by rewrite decide_False by done.
Qed.

Lemma gpu0_given_once_until_freed_witness :
  Forall (λ gpu, gpu = 1)
         (gpus_given [GetFreerGpu; GetFreerGpu]
            (get_freer_gpu (content_after [GetFreerGpu; FreeGpuInfo] EmptyString)).2)
  ∧ (get_freer_gpu
       (free_gpu_info (content_after [GetFreerGpu; FreeGpuInfo] EmptyString))).1 = 0.
Proof.
  apply (gpu0_given_once_until_freed EmptyString [GetFreerGpu; FreeGpuInfo]
           [GetFreerGpu; GetFreerGpu]).
  - discriminate.
  - by intros [[=]|[[=]|[]%elem_of_nil]%elem_of_cons]%elem_of_cons.
Defined.

(** X18. Server mode is set and left by hand only: when the file holds
    ['server'] no call changes it and every request gets GPU 0, and no
    sequence of calls writes ['server'] into a file that held something
    else. *)
Theorem server_mode_is_absorbing (info_file : string) (cs : list gpu_call) :
  (content_after cs info_file = "server"%string ↔ info_file = "server"%string)
  ∧ Forall (λ gpu, gpu = 0) (gpus_given cs "server").
Proof.
  split.
  - split.
    + intros Hc. destruct (decide (info_file = "server"%string)) as [|Hs]; [done|].
      by apply (content_after_not_server cs) in Hs.
    + intros ->. apply content_after_server.
  - induction cs as [|[] cs IH]; [constructor| |exact IH].
    by constructor.
Qed.

(** ** File names *)
Section name_strings.
Implicit Types (s t : string) (c : ascii).

Fixpoint free_of c s : Prop :=
  match s with
  | EmptyString => True
  | String c' s' => c' ≠ c ∧ free_of c s'
  end.

Lemma string_app_assoc s1 s2 s3 : (s1 +:+ s2) +:+ s3 = s1 +:+ s2 +:+ s3.
Proof.
  induction s1 as [|c s1 IH]; [done|].
  change (String c ((s1 +:+ s2) +:+ s3) = String c (s1 +:+ s2 +:+ s3)).
  by rewrite IH.
Qed.

Lemma string_app_inj_r s1 s2 t : s1 +:+ t = s2 +:+ t → s1 = s2.
Proof.
  intros E. apply (string_app_inj_length s1 s2 t t E).
  apply (f_equal String.length) in E. rewrite !length_string_app in E. lia.
Qed.

Lemma free_of_app c s t : free_of c (s +:+ t) ↔ free_of c s ∧ free_of c t.
Proof.
  induction s as [|c' s IH]; [cbn; tauto|].
  change (c' ≠ c ∧ free_of c (s +:+ t) ↔ (c' ≠ c ∧ free_of c s) ∧ free_of c t).
  rewrite IH. tauto.
Qed.

(** A string is cut in one way only at its last occurrence of [c]. *)
Lemma string_cut_last c s1 s2 t1 t2 :
  free_of c t1 → free_of c t2 →
  s1 +:+ String c t1 = s2 +:+ String c t2 → s1 = s2 ∧ t1 = t2.
Proof.
  intros H1 H2. revert s2.
  induction s1 as [|a s1 IH]; intros [|b s2] E; simplify_eq/=.
  - done.
  - apply free_of_app in H1 as [_ [[] _]]. done.
  - apply free_of_app in H2 as [_ [[] _]]. done.
  - by destruct (IH s2) as [-> ->].
Qed.

Lemma pretty_N_char_digit x : pretty_N_char x ≠ "_"%char.
Proof. unfold pretty_N_char. by repeat case_match. Qed.

Lemma pretty_N_go_free x s : free_of "_" s → free_of "_" (pretty_N_go x s).
Proof.
  revert s. induction (N.lt_wf_0 x) as [x _ IH]; intros s Hs.
  assert (x = 0 ∨ 0 < x)%N as [->|?] by lia.
  - by rewrite pretty_N_go_0.
  - rewrite pretty_N_go_step by done. apply IH.
    + by apply N.div_lt.
    + split; [apply pretty_N_char_digit|done].
Qed.

Lemma pretty_Z_free (z : Z) : free_of "_" (pretty z).
Proof.
  assert (∀ p, free_of "_" (pretty (N.pos p))) as Hpos.
  { intros p. unfold pretty, pretty_N. rewrite decide_False by done.
    by apply pretty_N_go_free. }
  destruct z as [|p|p]; [done|apply Hpos|].
  split; [done|apply Hpos].
Qed.

End name_strings.

Lemma create_best_encoder_name_cut ts_length outer_split_num encoder_name
    prefix_location suffix :
  create_best_encoder_name ts_length outer_split_num encoder_name
    prefix_location suffix
  = prefix_location
    +:+ (((encoder_name +:+ String "_" (pretty ts_length))
          +:+ String "_" (pretty outer_split_num))
         +:+ ("_best" +:+ suffix)).
Proof.
  unfold create_best_encoder_name. by rewrite !string_app_assoc.
Qed.

Lemma best_encoder_name_fields
    (ts_length ts_length' outer_split_num outer_split_num' : Z)
    (encoder_name encoder_name' prefix_location suffix : string) :
  create_best_encoder_name ts_length outer_split_num encoder_name
    prefix_location suffix
  = create_best_encoder_name ts_length' outer_split_num' encoder_name'
      prefix_location suffix →
  encoder_name = encoder_name' ∧ ts_length = ts_length'
  ∧ outer_split_num = outer_split_num'.
Proof.
  rewrite !create_best_encoder_name_cut. intros E.
  apply (inj (String.app prefix_location)) in E.
  apply string_app_inj_r in E.
  apply string_cut_last in E as [E Ek]; [|apply pretty_Z_free..].
  apply string_cut_last in E as [E Et]; [|apply pretty_Z_free..].
  split; [done|]. split; by apply (inj pretty).
Qed.

(** X19. For one log directory and one suffix, the name of the best
    encoder file determines the encoder name, the length of the time
    series and the outer fold: two runs that differ in one of them never
    write or read the same file, whatever characters the encoder name
    holds. *)
Theorem create_best_encoder_name_inj
    (ts_length ts_length' outer_split_num outer_split_num' : Z)
    (encoder_name encoder_name' prefix_location suffix : string) :
  create_best_encoder_name ts_length outer_split_num encoder_name
    prefix_location suffix
  = create_best_encoder_name ts_length' outer_split_num' encoder_name'
      prefix_location suffix
  ↔ encoder_name = encoder_name' ∧ ts_length = ts_length'
    ∧ outer_split_num = outer_split_num'.
Proof.
  split; [apply best_encoder_name_fields|by intros (-> & -> & ->)].
Qed.

(** X20. The encoder that the main loop loads is the one that
    encoders.py saved for the same strategy, time length and outer fold,
    and no other: encoders.py names the file by the [MODEL_NAME] of the
    model it trained, the main loop by the value of its encoding
    strategy, both in [logs/] with suffix [.pth]. For the strategy
    [STATS] the main loop asks for a file that encoders.py never
    writes. *)
Theorem loaded_encoder_is_saved_encoder
    (trained loaded : EncodingStrategy.t) (model : encoder)
    (ts_length ts_length' outer_split_num outer_split_num' : Z) :
  encoder_of trained = Some model →
  create_best_encoder_name ts_length' outer_split_num'
    (EncodingStrategy.value loaded) "logs/" ".pth"
  = create_best_encoder_name ts_length outer_split_num
      (MODEL_NAME model) "logs/" ".pth"
  ↔ loaded = trained ∧ ts_length' = ts_length
    ∧ outer_split_num' = outer_split_num.
Proof.
  intros Hm. split.
  - intros (Hn & -> & ->)%best_encoder_name_fields. split; [|done].
    destruct trained, loaded; simplify_eq/=; done.
  - intros (-> & -> & ->). by destruct trained; simplify_eq/=.
Qed.

Lemma loaded_encoder_is_saved_encoder_witness :
  create_best_encoder_name 1200 1
    (EncodingStrategy.value EncodingStrategy.STATS) "logs/" ".pth"
  = create_best_encoder_name 1200 1 (MODEL_NAME VAE) "logs/" ".pth"
  ↔ EncodingStrategy.STATS = EncodingStrategy.VAE3layers
    ∧ 1200 = 1200 ∧ 1 = 1.
Proof.
  apply (loaded_encoder_is_saved_encoder EncodingStrategy.VAE3layers
           EncodingStrategy.STATS VAE 1200 1200 1 1).
  reflexivity.
Defined.

(** X21. The comments of utils.py ask for values that differ in their
    first three letters, which is what log names keep of them (line
    195). The normalisations, convolution strategies and pooling
    strategies do; the encoding strategies do not: [3layerAE] and
    [3layerVAE] are both cut to [3la]. *)
Theorem three_letter_prefixes :
  (∀ e e', first3 (Normalisation.value e) = first3 (Normalisation.value e')
           → e = e')
  ∧ (∀ e e', first3 (ConvStrategy.value e) = first3 (ConvStrategy.value e')
             → e = e')
  ∧ (∀ e e', first3 (PoolingStrategy.value e)
             = first3 (PoolingStrategy.value e') → e = e')
  ∧ first3 (EncodingStrategy.value EncodingStrategy.AE3layers)
    = first3 (EncodingStrategy.value EncodingStrategy.VAE3layers).
Proof.
  split; [by intros [] []|]. split; [by intros [] []|].
  split; [by intros [] []|done].
Qed.

(** ** Dataset names *)

(** A head followed by fields, each behind an underscore. *)
Definition fields_after (head : string) (fields : list string) : string :=
  foldl (λ acc field, acc +:+ String "_" field) head fields.

(** The parts between the underscores of the values that hold
    underscores. *)
Definition AnalysisType_parts (e : AnalysisType.t) : list string :=
  match e with
  | AnalysisType.ST_UNIMODAL => ["st"; "unimodal"]
  | AnalysisType.ST_MULTIMODAL => ["st"; "multimodal"]
  | AnalysisType.FLATTEN_CORRS => ["flatten"; "corrs"]
  | AnalysisType.FLATTEN_CORRS_THRESHOLD => ["flatten"; "corrs"; "threshold"]
  end%string.

Definition Normalisation_part (e : Normalisation.t) : string :=
  match e with
  | Normalisation.NONE => "no"
  | Normalisation.ROI => "roi"
  | Normalisation.SUBJECT => "subject"
  end.

Lemma fields_after_app head l1 l2 :
  fields_after head (l1 ++ l2) = fields_after (fields_after head l1) l2.
Proof. apply foldl_app. Qed.

Lemma fields_after_string_app s head l :
  s +:+ fields_after head l = fields_after (s +:+ head) l.
Proof.
  revert head. induction l as [|x l IH]; intros head; [done|].
  simpl. by rewrite IH, string_app_assoc.
Qed.

(** Equal names with equally many underscore-free fields at the end have
    the same fields there, and the same text before them. *)
Lemma fields_after_inj head head' l l' :
  length l = length l' →
  Forall (free_of "_") l → Forall (free_of "_") l' →
  fields_after head l = fields_after head' l' →
  head = head' ∧ l = l'.
Proof.
  revert l'. induction l as [|x l IH] using rev_ind; intros l' Hlen Hl Hl' E.
  { destruct l'; [done|]. by simpl in Hlen. }
  destruct l' as [|x' l' _] using rev_ind.
  { rewrite length_app in Hlen. simpl in Hlen. lia. }
  rewrite !length_app in Hlen. simpl in Hlen.
  apply Forall_app in Hl as [Hl Hx]. apply Forall_app in Hl' as [Hl' Hx'].
  rewrite Forall_singleton in Hx, Hx'.
  rewrite !fields_after_app in E. simpl in E.
  apply string_cut_last in E as [E ->]; [|done..].
  destruct (IH l') as [-> ->]; [lia|done|done|done|done].
Qed.

Lemma create_name_for_brain_dataset_fields num_nodes time_length target_var
    threshold connectivity_type normalisation analysis_type dataset_type
    encoding_strategy :
  create_name_for_brain_dataset num_nodes time_length target_var threshold
    connectivity_type normalisation analysis_type dataset_type
    encoding_strategy
  = fields_after ("./pytorch_data/unbalanced_" +:+ target_var)
      ([DatasetType.value dataset_type] ++ AnalysisType_parts analysis_type
       ++ [EncodingStrategy.value encoding_strategy;
           ConnType.value connectivity_type;
           pretty num_nodes; pretty time_length; pretty threshold;
           Normalisation_part normalisation; "norm"%string]).
Proof.
  unfold create_name_for_brain_dataset. cbv zeta.
  rewrite <-fields_after_string_app. f_equal.
  cbn [String.concat].
  destruct analysis_type, normalisation; cbn;
    rewrite ?string_app_assoc; reflexivity.
Qed.

Lemma fields_after_inj_tail head head' l l' tail tail' :
  length tail = length tail' →
  Forall (free_of "_") tail → Forall (free_of "_") tail' →
  fields_after head (l ++ tail) = fields_after head' (l' ++ tail') →
  fields_after head l = fields_after head' l' ∧ tail = tail'.
Proof.
  rewrite !fields_after_app. apply fields_after_inj.
Qed.

Definition AnalysisType_last (e : AnalysisType.t) : string :=
  match e with
  | AnalysisType.ST_UNIMODAL => "unimodal"
  | AnalysisType.ST_MULTIMODAL => "multimodal"
  | AnalysisType.FLATTEN_CORRS => "corrs"
  | AnalysisType.FLATTEN_CORRS_THRESHOLD => "threshold"
  end.

Definition AnalysisType_front (e : AnalysisType.t) : list string :=
  match e with
  | AnalysisType.ST_UNIMODAL | AnalysisType.ST_MULTIMODAL => ["st"]
  | AnalysisType.FLATTEN_CORRS => ["flatten"]
  | AnalysisType.FLATTEN_CORRS_THRESHOLD => ["flatten"; "corrs"]
  end%string.

Ltac free_of_literal := repeat (split; [discriminate|]); exact I.

Lemma AnalysisType_last_free e : free_of "_" (AnalysisType_last e).
Proof. destruct e; free_of_literal. Qed.

Lemma AnalysisType_front_free e : Forall (free_of "_") (AnalysisType_front e).
Proof.
  destruct e; repeat (apply List.Forall_cons; [free_of_literal|]);
    apply List.Forall_nil.
Qed.

Lemma EncodingStrategy_value_free e : free_of "_" (EncodingStrategy.value e).
Proof. destruct e; free_of_literal. Qed.

Lemma ConnType_value_free e : free_of "_" (ConnType.value e).
Proof. destruct e; free_of_literal. Qed.

Lemma DatasetType_value_free e : free_of "_" (DatasetType.value e).
Proof. destruct e; free_of_literal. Qed.

Lemma Normalisation_part_free e : free_of "_" (Normalisation_part e).
Proof. destruct e; free_of_literal. Qed.

(** X22. The name of the dataset directory determines every argument it
    is built from: two configurations that differ in the target variable,
    the dataset, the analysis type, the encoding strategy, the
    connectivity type, the number of nodes, the time length, the threshold
    or the normalisation never share a directory, although the values
    themselves hold underscores ([flatten_corrs] is even the beginning of
    [flatten_corrs_threshold]) and the target variable is free text. *)
Theorem create_name_for_brain_dataset_inj
    (num_nodes num_nodes' time_length time_length' : Z)
    (target_var target_var' : string) (threshold threshold' : Z)
    (connectivity_type connectivity_type' : ConnType.t)
    (normalisation normalisation' : Normalisation.t)
    (analysis_type analysis_type' : AnalysisType.t)
    (dataset_type dataset_type' : DatasetType.t)
    (encoding_strategy encoding_strategy' : EncodingStrategy.t) :
  create_name_for_brain_dataset num_nodes time_length target_var threshold
    connectivity_type normalisation analysis_type dataset_type
    encoding_strategy
  = create_name_for_brain_dataset num_nodes' time_length' target_var'
      threshold' connectivity_type' normalisation' analysis_type'
      dataset_type' encoding_strategy'
  ↔ num_nodes = num_nodes' ∧ time_length = time_length'
    ∧ target_var = target_var' ∧ threshold = threshold'
    ∧ connectivity_type = connectivity_type'
    ∧ normalisation = normalisation' ∧ analysis_type = analysis_type'
    ∧ dataset_type = dataset_type' ∧ encoding_strategy = encoding_strategy'.
Proof.
  split; [|by intros (-> & -> & -> & -> & -> & -> & -> & -> & ->)].
  rewrite !create_name_for_brain_dataset_fields. intros E.
  assert (∀ e, AnalysisType_parts e
               = AnalysisType_front e ++ [AnalysisType_last e]) as Hparts
    by (by intros []).
  rewrite !Hparts in E.
  rewrite <-!(app_assoc (AnalysisType_front _)) in E.
  rewrite !(app_assoc [_] (AnalysisType_front _)) in E.
  apply fields_after_inj_tail in E as [E Etail].
  - injection Etail as Ea Ee Ec En Et Eh Ep.
    assert (analysis_type = analysis_type') as <-
      by (by destruct analysis_type, analysis_type').
    apply fields_after_inj in E as [E Ed].
    + apply (inj (String.app _)) in E. injection Ed as Ed.
      apply (inj pretty) in En, Et, Eh.
      repeat split; try done.
      * by destruct connectivity_type, connectivity_type'.
      * by destruct normalisation, normalisation'.
      * by destruct dataset_type, dataset_type'.
      * by destruct encoding_strategy, encoding_strategy'.
    + done.
    + constructor; [apply DatasetType_value_free|apply AnalysisType_front_free].
    + constructor; [apply DatasetType_value_free|apply AnalysisType_front_free].
  - done.
  - repeat constructor;
      auto using AnalysisType_last_free, EncodingStrategy_value_free,
        ConnType_value_free, pretty_Z_free, Normalisation_part_free.
  - repeat constructor;
      auto using AnalysisType_last_free, EncodingStrategy_value_free,
        ConnType_value_free, pretty_Z_free, Normalisation_part_free.
Qed.
